(** * GenericArrow: path planning and rendering of the environment visualizer

    Shallow embedding of [GenericArrow.tsx] in its two versions:
    - the composite one (a [KonvaGroup] holding a [KonvaPath] with a custom
      [sceneFunc] and a stock [KonvaArrow]), module [Composite];
    - the integrated one (a single [KonvaArrow] whose [sceneFunc] also strokes
      the chevron), module [Integrated].

    JavaScript numbers are idealised as real numbers extended with [NaN];
    [undefined] is the value of an array read outside the array.  Infinities,
    signed zeros and rounding are outside the model: the source adds,
    subtracts, multiplies and compares coordinates, divides by the literals
    2 and 6 only, and takes [atan2], [cos] and [sin]. *)

From Stdlib Require Import Reals Lra Lia ZArith List String.
From stdpp Require Import gmap strings.
Import ListNotations.

Local Open Scope R_scope.

(** ** JavaScript values *)

Inductive js : Type :=
| Undefined
| NaN
| Num (r : R).

(** A binary arithmetic operator: both operands go through [ToNumber], so
    [undefined] and [NaN] both give [NaN]. *)
Definition js_bin (f : R -> R -> R) (a b : js) : js :=
  match a, b with
  | Num x, Num y => Num (f x y)
  | _, _ => NaN
  end.

Definition js_un (f : R -> R) (a : js) : js :=
  match a with
  | Num x => Num (f x)
  | _ => NaN
  end.

Definition js_add : js -> js -> js := js_bin Rplus.
Definition js_sub : js -> js -> js := js_bin Rminus.
Definition js_mul : js -> js -> js := js_bin Rmult.
Definition js_div : js -> js -> js := js_bin Rdiv.

(** [Number(v)] *)
Definition Number (v : js) : js :=
  match v with
  | Undefined => NaN
  | _ => v
  end.

(** ** The [Math] object *)

Module Math.

Definition sgn (x : R) : R :=
  if Rlt_dec 0 x then 1 else if Rlt_dec x 0 then -1 else 0.

(** [Math.atan2(y, x)] on reals; [atan2(0, 0)] is [0] and
    [atan2(0, x)] for negative [x] is [PI], as for the positive zero that
    [a - a] evaluates to. *)
Definition atan2R (y x : R) : R :=
  if Rlt_dec 0 x then atan (y / x)
  else if Rlt_dec x 0 then
    (if Rle_dec 0 y then atan (y / x) + PI else atan (y / x) - PI)
  else if Rlt_dec 0 y then PI / 2
  else if Rlt_dec y 0 then - (PI / 2)
  else 0.

Definition abs : js -> js := js_un Rabs.
Definition sign : js -> js := js_un sgn.
Definition min : js -> js -> js := js_bin Rmin.
Definition max : js -> js -> js := js_bin Rmax.
Definition cos : js -> js := js_un Rtrigo_def.cos.
Definition sin : js -> js := js_un Rtrigo_def.sin.
Definition atan2 : js -> js -> js := js_bin atan2R.
Definition PI : js := Num Rtrigo1.PI.

End Math.

(** ** Arrays of numbers *)

(** [points[i]]: [undefined] outside the array, also for a negative index. *)
Definition get (points : list js) (i : Z) : js :=
  if (i <? 0)%Z then Undefined else nth (Z.to_nat i) points Undefined.

(** [points.length] *)
Definition len (points : list js) : Z := Z.of_nat (length points).

(** ** The canvas context *)

Inductive cmd : Type :=
| BeginPath
| MoveTo (x y : js)
| LineTo (x y : js)
| QuadraticCurveTo (cpx cpy x y : js)
| StrokeShape.

(** The context is the trace of the calls it has received, oldest first. *)
Definition Context : Type := list cmd.

Definition call (c : cmd) (ctx : Context) : Context := ctx ++ [c].

Definition is_curve (c : cmd) : bool :=
  match c with
  | QuadraticCurveTo _ _ _ _ => true
  | _ => false
  end.

(** What a [sceneFunc] can reach: the [points] array its closure captured and
    the context it is handed.  Both are objects of the heap, so both are
    threaded through every statement. *)
Record Scene : Type := {
  scene_points : list js;
  scene_ctx : Context
}.

Definition ctx_call (c : cmd) (s : Scene) : Scene :=
  {| scene_points := scene_points s; scene_ctx := call c (scene_ctx s) |}.

(** [points[i]] and [points.length] in the current state *)
Definition pt (s : Scene) (i : Z) : js := get (scene_points s) i.
Definition plen (s : Scene) : Z := len (scene_points s).

(** ** Corner smoothing *)

(** The locals of one iteration of the smoothing loop entered with counter [n]. *)
Record Corner : Type := {
  dx1 : js; dy1 : js; br1 : js;
  dx2 : js; dy2 : js; br2 : js;
  br : js;
  x1 : js; y1 : js;
  cpx : js; cpy : js;
  x2 : js; y2 : js
}.

Definition cornerRadius : js := Num 40.

Definition corner (points : list js) (n : Z) : Corner :=
  let dx1 := js_sub (get points (n + 2)) (get points (n + 0)) in
  let dy1 := js_sub (get points (n + 3)) (get points (n + 1)) in
  let br1 := Math.min cornerRadius
               (Math.max (Math.abs (js_div dx1 (Num 2))) (Math.abs (js_div dy1 (Num 2)))) in
  let dx2 := js_sub (get points (n + 2 + 2)) (get points (n + 0 + 2)) in
  let dy2 := js_sub (get points (n + 3 + 2)) (get points (n + 1 + 2)) in
  let br2 := Math.min cornerRadius
               (Math.max (Math.abs (js_div dx2 (Num 2))) (Math.abs (js_div dy2 (Num 2)))) in
  let br := Math.min br1 br2 in
  let x1 := js_add (get points (n + 0)) (js_mul (js_sub (Math.abs dx1) br) (Math.sign dx1)) in
  let y1 := js_add (get points (n + 1)) (js_mul (js_sub (Math.abs dy1) br) (Math.sign dy1)) in
  let n := (n + 2)%Z in
  let x2 := js_add (get points (n + 0)) (js_mul br (Math.sign dx2)) in
  let y2 := js_add (get points (n + 1)) (js_mul br (Math.sign dy2)) in
  {| dx1 := dx1; dy1 := dy1; br1 := br1;
     dx2 := dx2; dy2 := dy2; br2 := br2;
     br := br;
     x1 := x1; y1 := y1;
     cpx := get points (n + 0); cpy := get points (n + 1);
     x2 := x2; y2 := y2 |}.

(** The body of the loop: [lineTo] the pull-back point, then a quadratic
    curve over the corner.  The counter goes from [n] to [n + 2]. *)
Definition loop_body (n : Z) (s : Scene) : Scene :=
  let c := corner (scene_points s) n in
  let s := ctx_call (LineTo (x1 c) (y1 c)) s in
  ctx_call (QuadraticCurveTo (cpx c) (cpy c) (x2 c) (y2 c)) s.

(** [while (n < points.length - 4) { ... n += 2 ... }].  The counter grows by
    two in every iteration, so [length points] iterations are never used up
    ([while_corners_fuel]). *)
Fixpoint while_corners (fuel : nat) (n : Z) (s : Scene) : Scene :=
  match fuel with
  | O => s
  | S fuel' =>
      if (n <? plen s - 4)%Z
      then while_corners fuel' (n + 2) (loop_body n s)
      else s
  end.

(** From [beginPath] to the [lineTo] of the last point: the part the two
    versions of [sceneFunc] have in common. *)
Definition drawPath (s : Scene) : Scene :=
  let s := ctx_call BeginPath s in
  let s := ctx_call (MoveTo (pt s 0) (pt s 1)) s in
  if (plen s =? 4)%Z then
    ctx_call (LineTo (pt s 2) (pt s 3)) s
  else
    let s := while_corners (length (scene_points s)) 0 s in
    ctx_call (LineTo (pt s (plen s - 2)) (pt s (plen s - 1))) s.

(** The two strokes of the chevron of the integrated version. *)
Definition arrowLen : js := Num 10.

Definition angle_of (points : list js) : js :=
  Math.atan2 (js_sub (get points (len points - 1)) (get points (len points - 3)))
             (js_sub (get points (len points - 2)) (get points (len points - 4))).

Definition PI_6 : js := js_div Math.PI (Num 6).

Definition drawHead (s : Scene) : Scene :=
  let angle := angle_of (scene_points s) in
  let s := ctx_call
             (LineTo (js_sub (pt s (plen s - 2)) (js_mul arrowLen (Math.cos (js_sub angle PI_6))))
                     (js_sub (pt s (plen s - 1)) (js_mul arrowLen (Math.sin (js_sub angle PI_6))))) s in
  let s := ctx_call (MoveTo (pt s (plen s - 2)) (pt s (plen s - 1))) s in
  ctx_call
    (LineTo (js_sub (pt s (plen s - 2)) (js_mul arrowLen (Math.cos (js_add angle PI_6))))
            (js_sub (pt s (plen s - 1)) (js_mul arrowLen (Math.sin (js_add angle PI_6))))) s.

(** ** Collaborators *)

(** [Visible]: anything with numeric [x] and [y]. *)
Record Visible : Type := { vx : js; vy : js }.

(** A step maps the end of the previous segment to the next point. *)
Definition Step : Type := js -> js -> js * js.
Definition StepsArray : Type := list Step.

(** The value of an attribute of a Konva node. *)
Inductive attr : Type :=
| ANum (v : js)
| AStr (s : string).

(** The attributes of a Konva node, by name. *)
Abbreviation Attrs := (gmap string attr).

(** The entries of [Config] and the [ShapeDefaultProps] of
    EnvVisualizerConfig that the class reads; their values are not part of
    these sources, so they are parameters. *)
Record Config : Type := {
  ArrowStrokeWidth : js;
  ArrowHoveredStrokeWidth : js;
  ArrowHitStrokeWidth : js;
  SA_WHITE : string;
  ShapeDefaultProps : Attrs
}.

(** Modelled from the spec: [setHoveredStyle] of EnvVisualizerUtils, which is
    not among the sources.  The spec has it set the attributes it is given
    on the target and change no other attribute. *)
Definition setHoveredStyle (currentTarget : Attrs) (hoveredAttrs : Attrs) : Attrs :=
  hoveredAttrs ∪ currentTarget.

(** Modelled from the spec: [setUnhoveredStyle] of EnvVisualizerUtils, which
    is not among the sources; as [setHoveredStyle], it sets the attributes
    it is given and changes no other attribute. *)
Definition setUnhoveredStyle (currentTarget : Attrs) (unhoveredAttrs : Attrs) : Attrs :=
  unhoveredAttrs ∪ currentTarget.

(** A shape element: its props, the [points] array (the prop and the array
    captured by [sceneFunc] are one object) and the custom [sceneFunc], if
    the element has one. *)
Record Shape : Type := {
  props : Attrs;
  shape_points : list js;
  shape_sceneFunc : option (Scene -> Scene)
}.

(** Konva calls the [sceneFunc] of a shape with a context.  A shape without
    one is drawn by Konva's own code, which is not modelled: no result. *)
Definition render (sh : Shape) (ctx : Context) : option Context :=
  match shape_sceneFunc sh with
  | Some f => Some (scene_ctx (f {| scene_points := shape_points sh; scene_ctx := ctx |}))
  | None => None
  end.

(** ** The class, as far as the two versions agree *)

Module GenericArrow.

Record t : Type := {
  x : js;
  y : js;
  height : js;
  width : js;
  points : list js;
  from : Visible;
  target : option Visible
}.

Definition constructor (from : Visible) : t :=
  {| x := vx from; y := vy from;
     height := Num 0; width := Num 0;
     points := [];
     from := from;
     target := None |}.

Definition to (this : t) (to : Visible) : t :=
  {| x := x this; y := y this;
     height := Math.abs (js_sub (vy to) (vy (from this)));
     width := Math.abs (js_sub (vx to) (vx (from this)));
     points := points this;
     from := from this;
     target := Some to |}.

Definition calculateSteps (this : t) : StepsArray :=
  match target this with
  | None => []
  | Some to => [fun _ _ => (vx to, vy to)]
  end.

Definition onMouseEnter (cfg : Config) (currentTarget : Attrs) : Attrs :=
  setHoveredStyle currentTarget
    {[ "strokeWidth"%string := ANum (Number (ArrowHoveredStrokeWidth cfg)) ]}.

Definition onMouseLeave (cfg : Config) (currentTarget : Attrs) : Attrs :=
  setUnhoveredStyle currentTarget
    {[ "strokeWidth"%string := ANum (Number (ArrowStrokeWidth cfg)) ]}.

(** The callback of [reduce]: [[...points, ...step(points[length - 2], points[length - 1])]] *)
Definition reducer (points : list js) (step : Step) : list js :=
  let p := step (get points (len points - 2)) (get points (len points - 1)) in
  points ++ [fst p; snd p].

(** [steps.reduce(reducer, [from.x, from.y])] *)
Definition accumulate (origin : Visible) (steps : StepsArray) : list js :=
  fold_left reducer steps [vx origin; vy origin].

(** [points.splice(0, 2)]: what is left in the array. *)
Definition splice_0_2 (points : list js) : list js := skipn 2 points.

(** The first statements of [draw]: the local [points]. *)
Definition plan (origin : Visible) (steps : StepsArray) : list js :=
  splice_0_2 (accumulate origin steps).

(** The props both versions give the shape that carries [sceneFunc]. *)
Definition strokedProps (cfg : Config) : Attrs :=
  <[ "hitStrokeWidth"%string := ANum (Number (ArrowHitStrokeWidth cfg)) ]>
    (<[ "strokeWidth"%string := ANum (Number (ArrowStrokeWidth cfg)) ]>
       (<[ "stroke"%string := AStr (SA_WHITE cfg) ]>
          (<[ "fill"%string := AStr (SA_WHITE cfg) ]> (ShapeDefaultProps cfg)))).

End GenericArrow.

(** A call of [draw] runs on the heap: the instance and the static
    [Layout.key].  It returns the element and leaves a heap. *)
Record Heap : Type := {
  this : GenericArrow.t;
  Layout_key : Z
}.

(** ** The composite version: a group of a path and a stock arrow *)

Module Composite.

Record Group : Type := {
  key : Z;
  onMouseEnter : Attrs -> Attrs;
  onMouseLeave : Attrs -> Attrs;
  path : Shape;
  arrow : Shape
}.

Definition sceneFunc (s : Scene) : Scene :=
  let s := drawPath s in
  ctx_call StrokeShape s.

(** [draw], with the steps of [calculateSteps] (a subclass overrides it). *)
Definition draw_with (calculateSteps : GenericArrow.t -> StepsArray)
    (cfg : Config) (h : Heap) : Group * Heap :=
  let points := GenericArrow.plan (GenericArrow.from (this h)) (calculateSteps (this h)) in
  let key := Layout_key h in
  let h := {| this := this h; Layout_key := (Layout_key h + 1)%Z |} in
  ({| key := key;
      onMouseEnter := GenericArrow.onMouseEnter cfg;
      onMouseLeave := GenericArrow.onMouseLeave cfg;
      path := {| props := GenericArrow.strokedProps cfg;
                 shape_points := points;
                 shape_sceneFunc := Some sceneFunc |};
      arrow := {| props :=
                    <[ "hitStrokeWidth"%string := ANum (Num 0) ]>
                      (<[ "strokeWidth"%string := ANum (Num 0) ]>
                         (<[ "stroke"%string := AStr (SA_WHITE cfg) ]>
                            (<[ "fill"%string := AStr (SA_WHITE cfg) ]> (ShapeDefaultProps cfg))));
                  shape_points := points;
                  shape_sceneFunc := None |} |}, h).

Definition draw : Config -> Heap -> Group * Heap :=
  draw_with GenericArrow.calculateSteps.

End Composite.

(** ** The integrated version: one arrow that strokes its own chevron *)

Module Integrated.

Record Arrow : Type := {
  key : Z;
  onMouseEnter : Attrs -> Attrs;
  onMouseLeave : Attrs -> Attrs;
  shape : Shape
}.

Definition sceneFunc (s : Scene) : Scene :=
  let s := drawPath s in
  let s := drawHead s in
  ctx_call StrokeShape s.

Definition draw_with (calculateSteps : GenericArrow.t -> StepsArray)
    (cfg : Config) (h : Heap) : Arrow * Heap :=
  let points := GenericArrow.plan (GenericArrow.from (this h)) (calculateSteps (this h)) in
  let key := Layout_key h in
  let h := {| this := this h; Layout_key := (Layout_key h + 1)%Z |} in
  ({| key := key;
      onMouseEnter := GenericArrow.onMouseEnter cfg;
      onMouseLeave := GenericArrow.onMouseLeave cfg;
      shape := {| props := GenericArrow.strokedProps cfg;
                  shape_points := points;
                  shape_sceneFunc := Some sceneFunc |} |}, h).

Definition draw : Config -> Heap -> Arrow * Heap :=
  draw_with GenericArrow.calculateSteps.

End Integrated.

(** ** The host *)

(** What the pointer does to the node that carries the handlers. *)
Inductive pointer_event : Type :=
| Enter
| Leave.

(** The host calls the handler of the event with the node as [currentTarget]. *)
Definition dispatch (cfg : Config) (node : Attrs) (e : pointer_event) : Attrs :=
  match e with
  | Enter => GenericArrow.onMouseEnter cfg node
  | Leave => GenericArrow.onMouseLeave cfg node
  end.

Definition dispatch_all (cfg : Config) (events : list pointer_event) (node : Attrs) : Attrs :=
  fold_left (dispatch cfg) events node.

(** The host draws the arrows one after the other; [Layout.key] is handed
    from one call of [draw] to the next.  The result has the elements, the
    instances as the calls left them, and the last [Layout.key]. *)
Fixpoint draw_each {E : Type} (draw : Heap -> E * Heap)
    (arrows : list GenericArrow.t) (key : Z) : list E * list GenericArrow.t * Z :=
  match arrows with
  | [] => ([], [], key)
  | arrow :: arrows' =>
      let (el, h) := draw {| this := arrow; Layout_key := key |} in
      let '(els, arrows'', key') := draw_each draw arrows' (Layout_key h) in
      (el :: els, this h :: arrows'', key')
  end.

(** ** What the spec says the planner does *)

(** The points met when each step is applied, in order, to the point the
    previous step returned, the first one to [(x, y)]; flat, and without
    [(x, y)] itself. *)
Fixpoint follow (x y : js) (steps : StepsArray) : list js :=
  match steps with
  | [] => []
  | step :: steps' =>
      let p := step x y in
      fst p :: snd p :: follow (fst p) (snd p) steps'
  end.

(** ** Vocabulary of the statements about the renderer *)

(** The values the counter of the smoothing loop takes, for an array of
    length [L]: [n], [n + 2], ... below [L - 4]. *)
Fixpoint counters (fuel : nat) (n L : Z) : list Z :=
  match fuel with
  | O => []
  | S fuel' => if (n <? L - 4)%Z then n :: counters fuel' (n + 2) L else []
  end.

(** The offsets of the joints the loop rounds, in order. *)
Definition joints (points : list js) : list Z :=
  counters (length points) 0 (len points).

(** What one iteration draws: the line to the pull-back point and the curve
    whose control point is the joint [(points[n + 2], points[n + 3])]. *)
Definition corner_cmds (points : list js) (n : Z) : list cmd :=
  let c := corner points n in
  [LineTo (x1 c) (y1 c);
   QuadraticCurveTo (get points (n + 2)) (get points (n + 3)) (x2 c) (y2 c)].

(** The chevron of a heading [angle] at the point [(tx, ty)]. *)
Definition chevron (tx ty angle : js) : list cmd :=
  [LineTo (js_sub tx (js_mul (Num 10) (Math.cos (js_sub angle (js_div Math.PI (Num 6))))))
          (js_sub ty (js_mul (Num 10) (Math.sin (js_sub angle (js_div Math.PI (Num 6))))));
   MoveTo tx ty;
   LineTo (js_sub tx (js_mul (Num 10) (Math.cos (js_add angle (js_div Math.PI (Num 6))))))
          (js_sub ty (js_mul (Num 10) (Math.sin (js_add angle (js_div Math.PI (Num 6))))))].

(** The commands a [sceneFunc] adds to an empty context for [points]. *)
Definition emitted (sceneFunc : Scene -> Scene) (points : list js) : list cmd :=
  scene_ctx (sceneFunc {| scene_points := points; scene_ctx := [] |}).

(** [(px, py)] is on the segment from [(ax, ay)] to [(ex, ey)] and is
    neither of its ends. *)
Definition strictly_between (ax ay ex ey px py : R) : Prop :=
  exists t : R, 0 < t < 1 /\ px = ax + t * (ex - ax) /\ py = ay + t * (ey - ay).

Definition segment_length (ax ay ex ey : R) : R :=
  sqrt ((ex - ax) * (ex - ax) + (ey - ay) * (ey - ay)).

(** A [sceneFunc] draws nothing for [points] when it leaves every context as
    it found it. *)
Definition draws_nothing (sceneFunc : Scene -> Scene) (points : list js) : Prop :=
  forall ctx : Context,
    scene_ctx (sceneFunc {| scene_points := points; scene_ctx := ctx |}) = ctx.

(** The rounding of the joint met with counter [n] stays within the two
    segments: the six coordinates around the joint are numbers, the radius
    is at most half the length of either segment, the pull-back point is
    strictly between the previous point and the joint and the push-forward
    point strictly between the joint and the next point. *)
Definition rounding_within_segments (points : list js) (n : Z) : Prop :=
  exists ax ay jx jy ex ey b px py qx qy : R,
    get points n = Num ax /\ get points (n + 1) = Num ay /\
    get points (n + 2) = Num jx /\ get points (n + 3) = Num jy /\
    get points (n + 4) = Num ex /\ get points (n + 5) = Num ey /\
    br (corner points n) = Num b /\
    x1 (corner points n) = Num px /\ y1 (corner points n) = Num py /\
    x2 (corner points n) = Num qx /\ y2 (corner points n) = Num qy /\
    0 <= b <= Rmin (segment_length ax ay jx jy / 2) (segment_length jx jy ex ey / 2) /\
    strictly_between ax ay jx jy px py /\
    strictly_between jx jy ex ey qx qy.

(** A segment along an axis or along a diagonal: the two differences of
    coordinates are equal in size unless one of them is zero. *)
Definition axis_or_diagonal (dx dy : R) : Prop :=
  dx = 0 \/ dy = 0 \/ Rabs dx = Rabs dy.

(** The radius the loop computes, on reals. *)
Definition blend (dx dy : R) : R := Rmin 40 (Rmax (Rabs (dx / 2)) (Rabs (dy / 2))).

(** ** Vocabulary of the further properties *)

(** The step [(x, y) => [x + dx, y + dy]] of the comment on [calculateSteps]. *)
Definition relative_step (dx dy : R) : Step :=
  fun x y => (js_add x (Num dx), js_add y (Num dy)).

(** The sum of the first components, and of the second ones, of a list of
    offsets. *)
Definition sum_dx (offsets : list (R * R)) : R := fold_right Rplus 0 (map fst offsets).
Definition sum_dy (offsets : list (R * R)) : R := fold_right Rplus 0 (map snd offsets).

(** A value that is a number, and a command all of whose arguments are. *)
Definition finite (v : js) : bool :=
  match v with
  | Num _ => true
  | _ => false
  end.

Definition cmd_finite (c : cmd) : bool :=
  match c with
  | MoveTo x y | LineTo x y => finite x && finite y
  | QuadraticCurveTo cx cy x y => finite cx && finite cy && finite x && finite y
  | BeginPath | StrokeShape => true
  end.

(** A step that returns numbers when it is given numbers. *)
Definition finite_step (step : Step) : Prop :=
  forall x y : R, exists x' y' : R, step (Num x) (Num y) = (Num x', Num y').

(** The instance after [new GenericArrow(from)] and a [to] for each target,
    in order. *)
Definition built (from : Visible) (targets : list Visible) : GenericArrow.t :=
  fold_left GenericArrow.to targets (GenericArrow.constructor from).

(** Where the steps end when they start from [(x, y)]. *)
Fixpoint endpoint (x y : js) (steps : StepsArray) : js * js :=
  match steps with
  | [] => (x, y)
  | step :: steps' => endpoint (fst (step x y)) (snd (step x y)) steps'
  end.

(** The array of a list of points, and a point and a command moved by
    [(dx, dy)]. *)
Definition flat (ps : list (R * R)) : list js :=
  flat_map (fun p => [Num (fst p); Num (snd p)]) ps.

Definition move (dx dy : R) (p : R * R) : R * R := (fst p + dx, snd p + dy).

Definition move_cmd (dx dy : R) (c : cmd) : cmd :=
  match c with
  | MoveTo x y => MoveTo (js_add x (Num dx)) (js_add y (Num dy))
  | LineTo x y => LineTo (js_add x (Num dx)) (js_add y (Num dy))
  | QuadraticCurveTo cx cy x y =>
      QuadraticCurveTo (js_add cx (Num dx)) (js_add cy (Num dy))
                       (js_add x (Num dx)) (js_add y (Num dy))
  | BeginPath => BeginPath
  | StrokeShape => StrokeShape
  end.

(** What the owner of an instance does with it: a [to], or a [draw] of
    one version or the other.  Each runs on the heap and leaves a heap. *)
Inductive action : Type :=
| CallTo (t : Visible)
| DrawComposite
| DrawIntegrated.

Definition perform (cfg : Config) (calculateSteps : GenericArrow.t -> StepsArray)
    (h : Heap) (a : action) : Heap :=
  match a with
  | CallTo t => {| this := GenericArrow.to (this h) t; Layout_key := Layout_key h |}
  | DrawComposite => snd (Composite.draw_with calculateSteps cfg h)
  | DrawIntegrated => snd (Integrated.draw_with calculateSteps cfg h)
  end.

(** The targets of the [to]s among some actions, in order, and the number
    of [draw]s among them. *)
Fixpoint targets_of (actions : list action) : list Visible :=
  match actions with
  | [] => []
  | CallTo t :: rest => t :: targets_of rest
  | _ :: rest => targets_of rest
  end.

Fixpoint draws_of (actions : list action) : nat :=
  match actions with
  | [] => O
  | CallTo _ :: rest => draws_of rest
  | _ :: rest => S (draws_of rest)
  end.

(** * Properties *)

(** ** Arrays *)

Lemma get_nth (points : list js) (i : nat) :
  get points (Z.of_nat i) = nth i points Undefined.
Proof.
  unfold get. destruct (Z.ltb_spec (Z.of_nat i) 0); [lia|].
  now rewrite Nat2Z.id.
Qed.

Lemma get_negative (points : list js) (i : Z) :
  (i < 0)%Z -> get points i = Undefined.
Proof.
  intros Hi. unfold get. destruct (Z.ltb_spec i 0); [reflexivity | lia].
Qed.

Lemma get_beyond (points : list js) (i : Z) :
  (len points <= i)%Z -> get points i = Undefined.
Proof.
  unfold get, len. intros Hi.
  destruct (Z.ltb_spec i 0); [reflexivity|].
  apply nth_overflow. lia.
Qed.

Lemma get_app_r (pre l : list js) (k : nat) :
  get (pre ++ l) (Z.of_nat (length pre) + Z.of_nat k) = nth k l Undefined.
Proof.
  rewrite <- Nat2Z.inj_add, get_nth.
  rewrite app_nth2 by lia. f_equal. lia.
Qed.

Lemma len_app (l1 l2 : list js) : len (l1 ++ l2) = (len l1 + len l2)%Z.
Proof. unfold len. rewrite length_app. lia. Qed.

(** ** The planner *)

Lemma accumulate_follow (steps : StepsArray) : forall (pre : list js) (x y : js),
  fold_left GenericArrow.reducer steps (pre ++ [x; y]) = pre ++ [x; y] ++ follow x y steps.
Proof.
  induction steps as [|step steps IH]; intros pre x y; simpl.
  - reflexivity.
  - assert (Hstep : GenericArrow.reducer (pre ++ [x; y]) step =
                    (pre ++ [x; y]) ++ [fst (step x y); snd (step x y)]).
    { unfold GenericArrow.reducer. rewrite len_app. change (len [x; y]) with 2%Z.
      replace (len pre + 2 - 2)%Z with (Z.of_nat (length pre) + Z.of_nat 0)%Z
        by (unfold len; lia).
      replace (len pre + 2 - 1)%Z with (Z.of_nat (length pre) + Z.of_nat 1)%Z
        by (unfold len; lia).
      now rewrite !get_app_r. }
    rewrite Hstep, IH, <- app_assoc. reflexivity.
Qed.

Lemma follow_length (steps : StepsArray) : forall x y,
  length (follow x y steps) = (2 * length steps)%nat.
Proof.
  induction steps as [|step steps IH]; intros x y; simpl; [reflexivity|].
  rewrite IH. lia.
Qed.

Lemma accumulate_snoc (origin : Visible) (steps : StepsArray) (step : Step) :
  GenericArrow.accumulate origin (steps ++ [step]) =
  GenericArrow.reducer (GenericArrow.accumulate origin steps) step.
Proof. unfold GenericArrow.accumulate. now rewrite fold_left_app. Qed.

(** C2: [draw] folds the steps from [[from.x, from.y]], each step being called
    with the last two accumulated values and its pair appended, and then
    drops the first two values; what is left is the [k] points the steps
    returned one after the other, [2k] values, and nothing for no step. *)
Theorem plan_fold (origin : Visible) (steps : StepsArray) :
  GenericArrow.accumulate origin [] = [vx origin; vy origin] /\
  (forall step : Step,
     let acc := GenericArrow.accumulate origin steps in
     let p := step (get acc (len acc - 2)) (get acc (len acc - 1)) in
     GenericArrow.accumulate origin (steps ++ [step]) = acc ++ [fst p; snd p]) /\
  GenericArrow.accumulate origin steps =
    [vx origin; vy origin] ++ GenericArrow.plan origin steps /\
  GenericArrow.plan origin steps = follow (vx origin) (vy origin) steps /\
  length (GenericArrow.plan origin steps) = (2 * length steps)%nat /\
  GenericArrow.plan origin [] = [].
Proof.
  assert (Hacc : GenericArrow.accumulate origin steps =
                 [vx origin; vy origin] ++ follow (vx origin) (vy origin) steps).
  { unfold GenericArrow.accumulate.
    exact (accumulate_follow steps [] (vx origin) (vy origin)). }
  assert (Hplan : GenericArrow.plan origin steps = follow (vx origin) (vy origin) steps).
  { unfold GenericArrow.plan, GenericArrow.splice_0_2. now rewrite Hacc. }
  repeat split.
  - intros step. simpl. apply accumulate_snoc.
  - now rewrite Hplan.
  - exact Hplan.
  - rewrite Hplan. apply follow_length.
Qed.

(** ** The renderer keeps the array and only adds to the context *)

Lemma loop_body_points (n : Z) (s : Scene) :
  scene_points (loop_body n s) = scene_points s.
Proof. reflexivity. Qed.

Lemma while_corners_points (fuel : nat) : forall (n : Z) (s : Scene),
  scene_points (while_corners fuel n s) = scene_points s.
Proof.
  induction fuel as [|fuel IH]; intros n s; simpl; [reflexivity|].
  destruct (n <? plen s - 4)%Z; [|reflexivity].
  now rewrite IH.
Qed.

Lemma drawPath_points (s : Scene) : scene_points (drawPath s) = scene_points s.
Proof.
  unfold drawPath. cbv zeta.
  destruct (plen _ =? 4)%Z; simpl; [reflexivity|].
  now rewrite while_corners_points.
Qed.

Lemma drawHead_points (s : Scene) : scene_points (drawHead s) = scene_points s.
Proof. reflexivity. Qed.

Lemma loop_body_ctx (n : Z) (s : Scene) :
  scene_ctx (loop_body n s) = scene_ctx s ++ corner_cmds (scene_points s) n.
Proof.
  unfold loop_body, corner_cmds, ctx_call, call. simpl.
  rewrite <- app_assoc. simpl.
  replace (n + 2 + 0)%Z with (n + 2)%Z by lia.
  replace (n + 2 + 1)%Z with (n + 3)%Z by lia.
  reflexivity.
Qed.

Lemma while_corners_ctx (fuel : nat) : forall (n : Z) (s : Scene),
  scene_ctx (while_corners fuel n s) =
  scene_ctx s ++ flat_map (corner_cmds (scene_points s)) (counters fuel n (plen s)).
Proof.
  induction fuel as [|fuel IH]; intros n s; simpl.
  - now rewrite app_nil_r.
  - destruct (n <? plen s - 4)%Z; simpl.
    + rewrite IH, loop_body_ctx. unfold plen. rewrite loop_body_points.
      now rewrite <- app_assoc.
    + now rewrite app_nil_r.
Qed.

(** The loop is never cut short: more iterations than [length points] change
    nothing. *)
Lemma counters_fuel (fuel : nat) : forall (k : nat) (n L : Z),
  (L - 4 - n <= Z.of_nat fuel)%Z ->
  counters (fuel + k) n L = counters fuel n L.
Proof.
  induction fuel as [|fuel IH]; intros k n L Hfuel.
  - destruct k as [|k]; simpl; [reflexivity|].
    destruct (Z.ltb_spec n (L - 4)); [lia | reflexivity].
  - simpl. destruct (Z.ltb_spec n (L - 4)); [|reflexivity].
    f_equal. apply IH. lia.
Qed.

Lemma while_corners_fuel (fuel : nat) : forall (k : nat) (n : Z) (s : Scene),
  (plen s - 4 - n <= Z.of_nat fuel)%Z ->
  while_corners (fuel + k) n s = while_corners fuel n s.
Proof.
  induction fuel as [|fuel IH]; intros k n s Hfuel.
  - destruct k as [|k]; simpl; [reflexivity|].
    destruct (Z.ltb_spec n (plen s - 4)); [lia | reflexivity].
  - simpl. destruct (Z.ltb_spec n (plen s - 4)); [|reflexivity].
    apply IH. unfold plen in *. rewrite loop_body_points. lia.
Qed.

(** In [drawPath] the loop ends because its condition fails. *)
Lemma drawPath_loop_complete (s : Scene) (k : nat) :
  while_corners (length (scene_points s) + k) 0 s =
  while_corners (length (scene_points s)) 0 s.
Proof. apply while_corners_fuel. unfold plen, len. lia. Qed.

Lemma counters_spec (fuel : nat) : forall (n0 L n : Z),
  In n (counters fuel n0 L) <->
  (n0 <= n < L - 4)%Z /\ Z.even (n - n0) = true /\ (n - n0 < 2 * Z.of_nat fuel)%Z.
Proof.
  induction fuel as [|fuel IH]; intros n0 L n; simpl.
  - split; [tauto | lia].
  - destruct (Z.ltb_spec n0 (L - 4)); simpl.
    + rewrite IH. split.
      * intros [<- | (Hr & He & Hf)].
        -- rewrite Z.sub_diag. split; [lia | split; [reflexivity | lia]].
        -- split; [lia | split; [|lia]].
           replace (n - n0)%Z with (n - (n0 + 2) + 2)%Z by lia.
           now rewrite Z.even_add_even by (exists 1%Z; lia).
      * intros (Hr & He & Hf).
        destruct (Z.eq_dec n0 n) as [-> | Hne]; [now left | right].
        assert (n - n0 <> 1)%Z by (intros E; rewrite E in He; discriminate).
        split; [lia | split; [|lia]].
        replace (n - n0)%Z with (n - (n0 + 2) + 2)%Z in He by lia.
        now rewrite Z.even_add_even in He by (exists 1%Z; lia).
    + split; [tauto | lia].
Qed.

(** The joints are the even offsets below [points.length - 4]. *)
Lemma joints_spec (points : list js) (n : Z) :
  In n (joints points) <-> (0 <= n < len points - 4)%Z /\ Z.even n = true.
Proof.
  unfold joints. rewrite counters_spec, Z.sub_0_r. unfold len. intuition lia.
Qed.

Lemma drawPath_ctx (s : Scene) :
  scene_ctx (drawPath s) =
  scene_ctx s ++
  [BeginPath; MoveTo (pt s 0) (pt s 1)] ++
  (if (plen s =? 4)%Z then [LineTo (pt s 2) (pt s 3)]
   else flat_map (corner_cmds (scene_points s)) (joints (scene_points s)) ++
        [LineTo (pt s (plen s - 2)) (pt s (plen s - 1))]).
Proof.
  unfold drawPath. cbv zeta.
  change (plen (ctx_call _ (ctx_call BeginPath s))) with (plen s).
  destruct (plen s =? 4)%Z.
  - unfold ctx_call, call. simpl. now rewrite <- !app_assoc.
  - unfold ctx_call at 1. unfold call. simpl scene_ctx at 1.
    rewrite while_corners_ctx.
    unfold pt, plen. rewrite !while_corners_points. simpl.
    unfold call. rewrite <- !app_assoc. reflexivity.
Qed.

Lemma Composite_sceneFunc_ctx (s : Scene) :
  scene_ctx (Composite.sceneFunc s) = scene_ctx (drawPath s) ++ [StrokeShape].
Proof. reflexivity. Qed.

Lemma Integrated_sceneFunc_ctx (s : Scene) :
  scene_ctx (Integrated.sceneFunc s) =
  scene_ctx (drawPath s) ++
  chevron (pt s (plen s - 2)) (pt s (plen s - 1)) (angle_of (scene_points s)) ++
  [StrokeShape].
Proof.
  unfold Integrated.sceneFunc, drawHead, ctx_call, call, chevron, pt, plen. simpl.
  rewrite !drawPath_points, <- !app_assoc. reflexivity.
Qed.

Lemma Composite_sceneFunc_points (s : Scene) :
  scene_points (Composite.sceneFunc s) = scene_points s.
Proof. unfold Composite.sceneFunc. simpl. apply drawPath_points. Qed.

Lemma Integrated_sceneFunc_points (s : Scene) :
  scene_points (Integrated.sceneFunc s) = scene_points s.
Proof. unfold Integrated.sceneFunc. simpl. apply drawPath_points. Qed.

Lemma Scene_eq (s : Scene) (points : list js) (ctx : Context) :
  scene_points s = points -> scene_ctx s = ctx ->
  s = {| scene_points := points; scene_ctx := ctx |}.
Proof. destruct s; simpl; intros -> ->; reflexivity. Qed.

(** ** Real arithmetic of [Math] *)

Lemma sgn_pos (r : R) : 0 < r -> Math.sgn r = 1.
Proof. intros H. unfold Math.sgn. destruct (Rlt_dec 0 r); [reflexivity | lra]. Qed.

Lemma sgn_neg (r : R) : r < 0 -> Math.sgn r = -1.
Proof.
  intros H. unfold Math.sgn.
  destruct (Rlt_dec 0 r); [lra|]. destruct (Rlt_dec r 0); [reflexivity | lra].
Qed.

Lemma sgn_zero (r : R) : r = 0 -> Math.sgn r = 0.
Proof.
  intros H. unfold Math.sgn.
  destruct (Rlt_dec 0 r); [lra|]. destruct (Rlt_dec r 0); [lra | reflexivity].
Qed.

Lemma sgn_abs (r : R) : Math.sgn r * Rabs r = r.
Proof.
  destruct (Rtotal_order r 0) as [H | [H | H]].
  - rewrite sgn_neg, Rabs_left by lra. lra.
  - rewrite sgn_zero, H by lra. lra.
  - rewrite sgn_pos, Rabs_pos_eq by lra. lra.
Qed.

(** Evaluates [Rabs], [Rmin], [Rmax] and [sgn] where [lra] can tell the case,
    innermost first. *)
Ltac real_eval :=
  repeat match goal with
    | |- context [Rabs ?a] =>
        first [rewrite (Rabs_pos_eq a) by lra | rewrite (Rabs_left1 a) by lra]
    | |- context [Rmin ?a ?b] =>
        first [rewrite (Rmin_left a b) by lra | rewrite (Rmin_right a b) by lra]
    | |- context [Rmax ?a ?b] =>
        first [rewrite (Rmax_left a b) by lra | rewrite (Rmax_right a b) by lra]
    | |- context [Math.sgn ?a] =>
        first [rewrite (sgn_pos a) by lra | rewrite (sgn_neg a) by lra
              | rewrite (sgn_zero a) by lra]
    end.

(** Runs the code on a concrete array, leaving the real arithmetic to
    [real_eval]. *)
Ltac js_eval :=
  cbv - [Rplus Rminus Rmult Rdiv Rinv Ropp IZR Rabs Rmin Rmax sqrt atan
         Math.sgn Math.atan2R Rtrigo_def.cos Rtrigo_def.sin Rtrigo1.PI];
  real_eval.

Example corner_example :
  let c := corner (map Num [0; 0; 50; 0; 50; 50]) 0 in
  br1 c = Num 25 /\ br2 c = Num 25 /\ br c = Num 25 /\
  x1 c = Num 25 /\ y1 c = Num 0 /\ x2 c = Num 50 /\ y2 c = Num 25.
Proof.
  cbv zeta. repeat split; js_eval; f_equal; lra.
Qed.

(** ** Arrays shorter than two points *)

Lemma joints_short (points : list js) :
  (len points <= 4)%Z -> joints points = [].
Proof.
  intros H. unfold joints. destruct (length points); simpl; [reflexivity|].
  destruct (Z.ltb_spec 0 (len points - 4)); [lia | reflexivity].
Qed.

(** C1, as the code has it: for an array of fewer than 4 values [sceneFunc]
    rounds no corner and leaves the array alone, but it does call the
    context, in both versions: [beginPath], [moveTo] of the first two
    entries, [lineTo] of the last two (entries outside the array are
    [undefined]), in the integrated version the three calls of the chevron
    at the last two entries, and [strokeShape] last. *)
Theorem short_array_rendering (points : list js) (ctx : Context) :
  (length points < 4)%nat ->
  let s := {| scene_points := points; scene_ctx := ctx |} in
  let tx := get points (len points - 2) in
  let ty := get points (len points - 1) in
  drawPath s =
    {| scene_points := points;
       scene_ctx := ctx ++ [BeginPath; MoveTo (get points 0) (get points 1); LineTo tx ty] |} /\
  Composite.sceneFunc s =
    {| scene_points := points;
       scene_ctx := ctx ++ [BeginPath; MoveTo (get points 0) (get points 1);
                            LineTo tx ty; StrokeShape] |} /\
  Integrated.sceneFunc s =
    {| scene_points := points;
       scene_ctx := ctx ++ [BeginPath; MoveTo (get points 0) (get points 1); LineTo tx ty] ++
                    chevron tx ty (angle_of points) ++ [StrokeShape] |} /\
  existsb is_curve (emitted Composite.sceneFunc points) = false /\
  existsb is_curve (emitted Integrated.sceneFunc points) = false.
Proof.
  intros Hshort s tx ty. subst s.
  assert (Hlen : (len points <= 4)%Z) by (unfold len; lia).
  assert (Hne : (len points =? 4)%Z = false).
  { apply Z.eqb_neq. unfold len. lia. }
  assert (Hpath : forall ctx', scene_ctx (drawPath {| scene_points := points; scene_ctx := ctx' |}) =
                  ctx' ++ [BeginPath; MoveTo (get points 0) (get points 1); LineTo tx ty]).
  { intros ctx'. rewrite drawPath_ctx. simpl scene_ctx.
    unfold plen, pt. simpl scene_points. rewrite Hne.
    rewrite joints_short by exact Hlen. reflexivity. }
  repeat split.
  - apply Scene_eq; [apply drawPath_points | apply Hpath].
  - apply Scene_eq; [apply Composite_sceneFunc_points|].
    rewrite Composite_sceneFunc_ctx, Hpath, <- app_assoc. reflexivity.
  - apply Scene_eq; [apply Integrated_sceneFunc_points|].
    rewrite Integrated_sceneFunc_ctx, Hpath, <- app_assoc. reflexivity.
  - unfold emitted. rewrite Composite_sceneFunc_ctx, Hpath. reflexivity.
  - unfold emitted. rewrite Integrated_sceneFunc_ctx, Hpath. reflexivity.
Qed.

Lemma short_array_rendering_witness :
  (length [Num 100; Num 0] < 4)%nat /\
  Composite.sceneFunc {| scene_points := [Num 100; Num 0]; scene_ctx := [] |} =
    {| scene_points := [Num 100; Num 0];
       scene_ctx := [BeginPath; MoveTo (Num 100) (Num 0); LineTo (Num 100) (Num 0);
                     StrokeShape] |} /\
  Integrated.sceneFunc {| scene_points := [Num 100; Num 0]; scene_ctx := [] |} =
    {| scene_points := [Num 100; Num 0];
       scene_ctx := [BeginPath; MoveTo (Num 100) (Num 0); LineTo (Num 100) (Num 0)] ++
                    chevron (Num 100) (Num 0) (angle_of [Num 100; Num 0]) ++
                    [StrokeShape] |} /\
  existsb is_curve (emitted Integrated.sceneFunc [Num 100; Num 0]) = false.
Proof.
  assert (Hshort : (length [Num 100; Num 0] < 4)%nat) by (simpl; lia).
  split; [exact Hshort|].
  destruct (short_array_rendering [Num 100; Num 0] [] Hshort) as (_ & Hc & Hi & _ & Hn).
  split; [exact Hc|]. split; [exact Hi | exact Hn].
Defined.

(** C1, as stated, fails: for the empty array and for a one-point array
    both versions of [sceneFunc] add commands to the context, and for the
    empty array the [moveTo] is given entries read outside the array. *)
Lemma short_array_is_drawn :
  ~ draws_nothing Composite.sceneFunc [] /\
  ~ draws_nothing Composite.sceneFunc [Num 100; Num 0] /\
  ~ draws_nothing Integrated.sceneFunc [] /\
  ~ draws_nothing Integrated.sceneFunc [Num 100; Num 0] /\
  emitted Composite.sceneFunc [] =
    [BeginPath; MoveTo Undefined Undefined; LineTo Undefined Undefined; StrokeShape] /\
  emitted Composite.sceneFunc [Num 100; Num 0] =
    [BeginPath; MoveTo (Num 100) (Num 0); LineTo (Num 100) (Num 0); StrokeShape].
Proof.
  repeat split; try (intros H; specialize (H []); discriminate H).
Qed.

(** ** Corners *)

Lemma emitted_Composite (points : list js) :
  emitted Composite.sceneFunc points =
  [BeginPath; MoveTo (get points 0) (get points 1)] ++
  (if (len points =? 4)%Z then [LineTo (get points 2) (get points 3)]
   else flat_map (corner_cmds points) (joints points) ++
        [LineTo (get points (len points - 2)) (get points (len points - 1))]) ++
  [StrokeShape].
Proof.
  unfold emitted. rewrite Composite_sceneFunc_ctx, drawPath_ctx.
  unfold pt, plen. simpl. destruct (len points =? 4)%Z; [reflexivity|].
  now rewrite <- app_assoc.
Qed.

Lemma emitted_Integrated (points : list js) :
  emitted Integrated.sceneFunc points =
  [BeginPath; MoveTo (get points 0) (get points 1)] ++
  (if (len points =? 4)%Z then [LineTo (get points 2) (get points 3)]
   else flat_map (corner_cmds points) (joints points) ++
        [LineTo (get points (len points - 2)) (get points (len points - 1))]) ++
  chevron (get points (len points - 2)) (get points (len points - 1)) (angle_of points) ++
  [StrokeShape].
Proof.
  unfold emitted. rewrite Integrated_sceneFunc_ctx, drawPath_ctx.
  unfold pt, plen. simpl. destruct (len points =? 4)%Z; [reflexivity|].
  now rewrite <- !app_assoc.
Qed.

(** C4: what [sceneFunc] draws between the first [moveTo] and the last
    [lineTo] is, for each joint offset [n] in order, a line to the pull-back
    point and a quadratic curve whose control point is the joint itself,
    [(points[n + 2], points[n + 3])]; for (0,0), (50,0), (50,50) the radius is
    25, the line goes to (25,0) and the curve to (50,25) around (50,0). *)
Theorem curve_control_is_joint :
  (forall (points : list js) (n : Z),
     corner_cmds points n =
     [LineTo (x1 (corner points n)) (y1 (corner points n));
      QuadraticCurveTo (get points (n + 2)) (get points (n + 3))
                       (x2 (corner points n)) (y2 (corner points n))]) /\
  (forall (points : list js) (n : Z),
     In n (joints points) <-> (0 <= n < len points - 4)%Z /\ Z.even n = true) /\
  (forall points : list js,
     emitted Composite.sceneFunc points =
     [BeginPath; MoveTo (get points 0) (get points 1)] ++
     (if (len points =? 4)%Z then [LineTo (get points 2) (get points 3)]
      else flat_map (corner_cmds points) (joints points) ++
           [LineTo (get points (len points - 2)) (get points (len points - 1))]) ++
     [StrokeShape]) /\
  (forall points : list js,
     emitted Integrated.sceneFunc points =
     [BeginPath; MoveTo (get points 0) (get points 1)] ++
     (if (len points =? 4)%Z then [LineTo (get points 2) (get points 3)]
      else flat_map (corner_cmds points) (joints points) ++
           [LineTo (get points (len points - 2)) (get points (len points - 1))]) ++
     chevron (get points (len points - 2)) (get points (len points - 1)) (angle_of points) ++
     [StrokeShape]) /\
  (let c := corner (map Num [0; 0; 50; 0; 50; 50]) 0 in
   br1 c = Num 25 /\ br2 c = Num 25 /\ br c = Num 25) /\
  emitted Composite.sceneFunc (map Num [0; 0; 50; 0; 50; 50]) =
    [BeginPath; MoveTo (Num 0) (Num 0);
     LineTo (Num 25) (Num 0);
     QuadraticCurveTo (Num 50) (Num 0) (Num 50) (Num 25);
     LineTo (Num 50) (Num 50); StrokeShape].
Proof.
  split; [reflexivity|].
  split; [exact joints_spec|].
  split; [exact emitted_Composite|].
  split; [exact emitted_Integrated|].
  split.
  { pose proof corner_example as H. cbv zeta in *. tauto. }
  js_eval. repeat (f_equal; try lra).
Qed.

(** ** The chevron *)

Lemma atan2R_origin : Math.atan2R 0 0 = 0.
Proof.
  unfold Math.atan2R.
  repeat match goal with |- context [Rlt_dec ?a ?b] => destruct (Rlt_dec a b); try lra end.
Qed.

Lemma atan2R_east (x : R) : 0 < x -> Math.atan2R 0 x = 0.
Proof.
  intros Hx. unfold Math.atan2R. destruct (Rlt_dec 0 x); [|lra].
  replace (0 / x) with 0 by (field; lra). apply atan_0.
Qed.

Lemma stroke_length (tx ty a : R) :
  segment_length tx ty (tx - 10 * cos a) (ty - 10 * sin a) = 10.
Proof.
  unfold segment_length.
  replace ((tx - 10 * cos a - tx) * (tx - 10 * cos a - tx) +
           (ty - 10 * sin a - ty) * (ty - 10 * sin a - ty))
    with (10 * 10 * (Rsqr (sin a) + Rsqr (cos a))) by (unfold Rsqr; ring).
  rewrite sin2_cos2, Rmult_1_r. apply sqrt_square. lra.
Qed.

Lemma drawPath_ends_at_last (s : Scene) :
  exists path : list cmd,
    scene_ctx (drawPath s) = path ++ [LineTo (pt s (plen s - 2)) (pt s (plen s - 1))].
Proof.
  rewrite drawPath_ctx. destruct (Z.eqb_spec (plen s) 4) as [E | _].
  - exists (scene_ctx s ++ [BeginPath; MoveTo (pt s 0) (pt s 1)]).
    rewrite E, <- app_assoc. reflexivity.
  - exists (scene_ctx s ++ [BeginPath; MoveTo (pt s 0) (pt s 1)] ++
            flat_map (corner_cmds (scene_points s)) (joints (scene_points s))).
    now rewrite <- !app_assoc.
Qed.

Lemma get_last4 (pre : list js) (a b c d : js) (k : nat) :
  (k < 4)%nat ->
  get (pre ++ [a; b; c; d]) (len (pre ++ [a; b; c; d]) - 4 + Z.of_nat k) =
  nth k [a; b; c; d] Undefined.
Proof.
  intros Hk. rewrite len_app. change (len [a; b; c; d]) with 4%Z.
  replace (len pre + 4 - 4 + Z.of_nat k)%Z with (Z.of_nat (length pre) + Z.of_nat k)%Z
    by (unfold len; lia).
  apply get_app_r.
Qed.

Lemma angle_of_last (pre : list js) (px py tx ty : R) :
  angle_of (pre ++ [Num px; Num py; Num tx; Num ty]) =
  Num (Math.atan2R (ty - py) (tx - px)).
Proof.
  unfold angle_of.
  set (points := pre ++ [Num px; Num py; Num tx; Num ty]).
  replace (len points - 1)%Z with (len points - 4 + Z.of_nat 3)%Z by lia.
  replace (len points - 2)%Z with (len points - 4 + Z.of_nat 2)%Z by lia.
  replace (len points - 3)%Z with (len points - 4 + Z.of_nat 1)%Z by lia.
  replace (len points - 4)%Z with (len points - 4 + Z.of_nat 0)%Z at 4 by lia.
  unfold points. rewrite !get_last4 by lia. reflexivity.
Qed.

(** C6: after the path the integrated [sceneFunc] strokes the chevron of the
    heading [atan2] of the last point minus the one before it: from the last
    point [(tx, ty)], where the path ends, a line to
    [(tx - 10 cos (angle - PI/6), ty - 10 sin (angle - PI/6))], back to
    [(tx, ty)], and a line to the same with [angle + PI/6]; both strokes are
    10 long. *)
Theorem chevron_heading (pre : list js) (ctx : Context) (px py tx ty : R) :
  let points := pre ++ [Num px; Num py; Num tx; Num ty] in
  let s := {| scene_points := points; scene_ctx := ctx |} in
  let angle := Math.atan2R (ty - py) (tx - px) in
  let lx := tx - 10 * cos (angle - PI / 6) in
  let ly := ty - 10 * sin (angle - PI / 6) in
  let rx := tx - 10 * cos (angle + PI / 6) in
  let ry := ty - 10 * sin (angle + PI / 6) in
  angle_of points = Num angle /\
  (exists path : list cmd,
     scene_ctx (drawPath s) = path ++ [LineTo (Num tx) (Num ty)]) /\
  Integrated.sceneFunc s =
    {| scene_points := points;
       scene_ctx := scene_ctx (drawPath s) ++
                    [LineTo (Num lx) (Num ly); MoveTo (Num tx) (Num ty);
                     LineTo (Num rx) (Num ry); StrokeShape] |} /\
  segment_length tx ty lx ly = 10 /\
  segment_length tx ty rx ry = 10.
Proof.
  intros points s angle lx ly rx ry.
  assert (Htx : get points (len points - 2) = Num tx).
  { replace (len points - 2)%Z with (len points - 4 + Z.of_nat 2)%Z by lia.
    unfold points. now rewrite get_last4 by lia. }
  assert (Hty : get points (len points - 1) = Num ty).
  { replace (len points - 1)%Z with (len points - 4 + Z.of_nat 3)%Z by lia.
    unfold points. now rewrite get_last4 by lia. }
  assert (Hangle : angle_of points = Num angle) by apply angle_of_last.
  split; [exact Hangle|].
  split.
  { destruct (drawPath_ends_at_last s) as [path Hpath]. exists path.
    rewrite Hpath. unfold pt, plen. simpl scene_points. now rewrite Htx, Hty. }
  split.
  { apply Scene_eq; [apply Integrated_sceneFunc_points|].
    rewrite Integrated_sceneFunc_ctx. unfold pt, plen. simpl scene_points.
    rewrite Htx, Hty, Hangle. reflexivity. }
  split; apply stroke_length.
Qed.

(** ** The arrow of the base class *)

Lemma plan_base (from to : Visible) :
  GenericArrow.plan from
    (GenericArrow.calculateSteps
       (GenericArrow.to (GenericArrow.constructor from) to)) = [vx to; vy to].
Proof. reflexivity. Qed.

(** C5, what the code does: for the anchor (0,0) and the target (100,0) the
    local [points] of [draw] is [[100, 0]], and that array, without the
    anchor, is what [sceneFunc] draws: a [moveTo] and a [lineTo] of (100,0),
    no curve, and in the integrated version a chevron at [NaN], its heading
    being computed from entries outside the array.  Given both points,
    [sceneFunc] draws the line from (0,0) to (100,0) and the chevron of
    heading 0. *)
Theorem base_arrow_loses_anchor (cfg : Config) (k : Z) :
  let anchor := {| vx := Num 0; vy := Num 0 |} in
  let target := {| vx := Num 100; vy := Num 0 |} in
  let h := {| this := GenericArrow.to (GenericArrow.constructor anchor) target;
              Layout_key := k |} in
  shape_points (Integrated.shape (fst (Integrated.draw cfg h))) = [Num 100; Num 0] /\
  shape_points (Composite.path (fst (Composite.draw cfg h))) = [Num 100; Num 0] /\
  render (Integrated.shape (fst (Integrated.draw cfg h))) [] =
    Some [BeginPath; MoveTo (Num 100) (Num 0); LineTo (Num 100) (Num 0);
          LineTo NaN NaN; MoveTo (Num 100) (Num 0); LineTo NaN NaN; StrokeShape] /\
  render (Composite.path (fst (Composite.draw cfg h))) [] =
    Some [BeginPath; MoveTo (Num 100) (Num 0); LineTo (Num 100) (Num 0); StrokeShape] /\
  angle_of [Num 100; Num 0] = NaN /\
  angle_of [Num 0; Num 0; Num 100; Num 0] = Num 0 /\
  emitted Integrated.sceneFunc [Num 0; Num 0; Num 100; Num 0] =
    [BeginPath; MoveTo (Num 0) (Num 0); LineTo (Num 100) (Num 0);
     LineTo (Num (100 - 10 * cos (0 - PI / 6))) (Num (0 - 10 * sin (0 - PI / 6)));
     MoveTo (Num 100) (Num 0);
     LineTo (Num (100 - 10 * cos (0 + PI / 6))) (Num (0 - 10 * sin (0 + PI / 6)));
     StrokeShape].
Proof.
  assert (Hangle : Math.atan2R (0 - 0) (100 - 0) = 0).
  { replace (0 - 0) with 0 by lra. apply atan2R_east. lra. }
  repeat split.
  - cbv - [Rplus Rminus Rmult Rdiv Rinv Ropp IZR Math.atan2R]. now rewrite Hangle.
  - js_eval. now rewrite Hangle.
Qed.

(** C7, what the code does: when [from] and [target] are the same point
    [(a, b)] the local [points] of [draw] is the one point [[a, b]], and
    the integrated [sceneFunc] gives the chevron the heading [NaN] and ends
    both strokes at [(NaN, NaN)].  Given the point twice, [sceneFunc] takes
    the heading [atan2(0, 0) = 0] and the chevron is finite. *)
Theorem coincident_ends_chevron_NaN (cfg : Config) (k : Z) (a b : R) :
  let v := {| vx := Num a; vy := Num b |} in
  let h := {| this := GenericArrow.to (GenericArrow.constructor v) v;
              Layout_key := k |} in
  shape_points (Integrated.shape (fst (Integrated.draw cfg h))) = [Num a; Num b] /\
  angle_of [Num a; Num b] = NaN /\
  render (Integrated.shape (fst (Integrated.draw cfg h))) [] =
    Some [BeginPath; MoveTo (Num a) (Num b); LineTo (Num a) (Num b);
          LineTo NaN NaN; MoveTo (Num a) (Num b); LineTo NaN NaN; StrokeShape] /\
  angle_of [Num a; Num b; Num a; Num b] = Num 0 /\
  emitted Integrated.sceneFunc [Num a; Num b; Num a; Num b] =
    [BeginPath; MoveTo (Num a) (Num b); LineTo (Num a) (Num b);
     LineTo (Num (a - 10 * cos (0 - PI / 6))) (Num (b - 10 * sin (0 - PI / 6)));
     MoveTo (Num a) (Num b);
     LineTo (Num (a - 10 * cos (0 + PI / 6))) (Num (b - 10 * sin (0 + PI / 6)));
     StrokeShape].
Proof.
  assert (Hangle : Math.atan2R (b - b) (a - a) = 0).
  { replace (b - b) with 0 by lra. replace (a - a) with 0 by lra. apply atan2R_origin. }
  repeat split.
  - cbv - [Rplus Rminus Rmult Rdiv Rinv Ropp IZR Math.atan2R]. now rewrite Hangle.
  - js_eval. now rewrite Hangle.
Qed.

(** ** The radius of a corner *)

Lemma corner_reals (points : list js) (n : Z) (ax ay jx jy ex ey : R) :
  get points n = Num ax -> get points (n + 1) = Num ay ->
  get points (n + 2) = Num jx -> get points (n + 3) = Num jy ->
  get points (n + 4) = Num ex -> get points (n + 5) = Num ey ->
  let b := Rmin (blend (jx - ax) (jy - ay)) (blend (ex - jx) (ey - jy)) in
  br (corner points n) = Num b /\
  x1 (corner points n) = Num (ax + (Rabs (jx - ax) - b) * Math.sgn (jx - ax)) /\
  y1 (corner points n) = Num (ay + (Rabs (jy - ay) - b) * Math.sgn (jy - ay)) /\
  x2 (corner points n) = Num (jx + b * Math.sgn (ex - jx)) /\
  y2 (corner points n) = Num (jy + b * Math.sgn (ey - jy)).
Proof.
  intros H0 H1 H2 H3 H4 H5 b. unfold corner. cbv zeta.
  replace (n + 0)%Z with n by lia.
  replace (n + 2 + 2)%Z with (n + 4)%Z by lia.
  replace (n + 0 + 2)%Z with (n + 2)%Z by lia.
  replace (n + 3 + 2)%Z with (n + 5)%Z by lia.
  replace (n + 1 + 2)%Z with (n + 3)%Z by lia.
  replace (n + 2 + 0)%Z with (n + 2)%Z by lia.
  replace (n + 2 + 1)%Z with (n + 3)%Z by lia.
  rewrite H0, H1, H2, H3, H4, H5. simpl. repeat split.
Qed.

Lemma Rabs_le_length (dx dy : R) : Rabs dx <= sqrt (dx * dx + dy * dy).
Proof.
  rewrite <- sqrt_Rsqr_abs. apply sqrt_le_1_alt. unfold Rsqr. nra.
Qed.

Lemma blend_bounds (dx dy : R) :
  0 <= blend dx dy /\ blend dx dy <= 40 /\
  blend dx dy <= Rmax (Rabs dx) (Rabs dy) / 2 /\
  Rmax (Rabs dx) (Rabs dy) / 2 <= sqrt (dx * dx + dy * dy) / 2.
Proof.
  unfold blend.
  assert (Hx : Rabs (dx / 2) = Rabs dx / 2).
  { unfold Rdiv. rewrite Rabs_mult, (Rabs_pos_eq (/ 2)) by lra. reflexivity. }
  assert (Hy : Rabs (dy / 2) = Rabs dy / 2).
  { unfold Rdiv. rewrite Rabs_mult, (Rabs_pos_eq (/ 2)) by lra. reflexivity. }
  rewrite Hx, Hy.
  pose proof (Rabs_pos dx). pose proof (Rabs_pos dy).
  pose proof (Rabs_le_length dx dy) as Lx.
  pose proof (Rabs_le_length dy dx) as Ly.
  rewrite (Rplus_comm (dy * dy)) in Ly.
  repeat split.
  - apply Rmin_glb; [lra|]. apply Rle_trans with (Rabs dx / 2); [lra | apply Rmax_l].
  - apply Rmin_l.
  - eapply Rle_trans; [apply Rmin_r|].
    apply Rmax_lub.
    + pose proof (Rmax_l (Rabs dx) (Rabs dy)). lra.
    + pose proof (Rmax_r (Rabs dx) (Rabs dy)). lra.
  - assert (Rmax (Rabs dx) (Rabs dy) <= sqrt (dx * dx + dy * dy)) by (apply Rmax_lub; lra).
    lra.
Qed.

Lemma blend_pos (dx dy : R) : dx <> 0 \/ dy <> 0 -> 0 < blend dx dy.
Proof.
  intros Hne. unfold blend. apply Rmin_glb_lt; [lra|].
  destruct Hne as [Hne | Hne].
  - apply Rlt_le_trans with (Rabs (dx / 2)); [|apply Rmax_l].
    apply Rabs_pos_lt. lra.
  - apply Rlt_le_trans with (Rabs (dy / 2)); [|apply Rmax_r].
    apply Rabs_pos_lt. lra.
Qed.

(** Along one axis: the difference is zero or as large as the larger one. *)
Lemma axis_cases (dx dy : R) :
  axis_or_diagonal dx dy ->
  (dx = 0 \/ Rabs dx = Rmax (Rabs dx) (Rabs dy)) /\
  (dy = 0 \/ Rabs dy = Rmax (Rabs dx) (Rabs dy)).
Proof.
  pose proof (Rabs_pos dx) as Px. pose proof (Rabs_pos dy) as Py.
  intros [E | [E | E]].
  - split; [now left | right]. rewrite E, Rabs_R0, Rmax_right; lra.
  - split; [right | now left]. rewrite E, Rabs_R0, Rmax_left; lra.
  - split; right; rewrite E, Rmax_left; lra.
Qed.

Lemma pull_back_axis (d0 d b : R) :
  0 < d -> d0 = 0 \/ Rabs d0 = d ->
  (Rabs d0 - b) * Math.sgn d0 = (d - b) / d * d0.
Proof.
  intros Hd [-> | Hd0].
  - rewrite sgn_zero by reflexivity. lra.
  - rewrite Hd0. rewrite <- (sgn_abs d0) at 2. rewrite Hd0. field. lra.
Qed.

Lemma push_forward_axis (d0 d b : R) :
  0 < d -> d0 = 0 \/ Rabs d0 = d ->
  b * Math.sgn d0 = b / d * d0.
Proof.
  intros Hd [-> | Hd0].
  - rewrite sgn_zero by reflexivity. lra.
  - rewrite <- (sgn_abs d0) at 2. rewrite Hd0. field. lra.
Qed.

Lemma pull_back_between (ax ay jx jy b : R) :
  axis_or_diagonal (jx - ax) (jy - ay) ->
  0 < b -> b <= Rmax (Rabs (jx - ax)) (Rabs (jy - ay)) / 2 ->
  strictly_between ax ay jx jy
    (ax + (Rabs (jx - ax) - b) * Math.sgn (jx - ax))
    (ay + (Rabs (jy - ay) - b) * Math.sgn (jy - ay)).
Proof.
  intros Hax Hb Hhalf.
  destruct (axis_cases _ _ Hax) as [Hx Hy].
  set (d := Rmax (Rabs (jx - ax)) (Rabs (jy - ay))) in *.
  assert (Hd : 0 < d) by lra.
  exists ((d - b) / d). split.
  - split.
    + apply Rdiv_lt_0_compat; lra.
    + apply Rmult_lt_reg_r with d; [exact Hd|].
      replace ((d - b) / d * d) with (d - b) by (field; lra). lra.
  - split; f_equal; apply pull_back_axis; assumption.
Qed.

Lemma push_forward_between (jx jy ex ey b : R) :
  axis_or_diagonal (ex - jx) (ey - jy) ->
  0 < b -> b <= Rmax (Rabs (ex - jx)) (Rabs (ey - jy)) / 2 ->
  strictly_between jx jy ex ey
    (jx + b * Math.sgn (ex - jx))
    (jy + b * Math.sgn (ey - jy)).
Proof.
  intros Hax Hb Hhalf.
  destruct (axis_cases _ _ Hax) as [Hx Hy].
  set (d := Rmax (Rabs (ex - jx)) (Rabs (ey - jy))) in *.
  assert (Hd : 0 < d) by lra.
  exists (b / d). split.
  - split.
    + apply Rdiv_lt_0_compat; lra.
    + apply Rmult_lt_reg_r with d; [exact Hd|].
      replace (b / d * d) with b by (field; lra). lra.
  - split; f_equal; apply push_forward_axis; assumption.
Qed.

(** C3, as the code has it: at a joint whose six surrounding coordinates
    are numbers the radius is between 0 and half the length of either
    segment (and at most 40).  The pull-back point is strictly between the
    previous point and the joint when neither segment is a single point and
    the incoming one runs along an axis or a diagonal; the push-forward
    point is strictly between the joint and the next point when neither
    segment is a single point and the outgoing one runs along an axis or a
    diagonal. *)
Theorem corner_within_segments (points : list js) (n : Z) (ax ay jx jy ex ey : R) :
  get points n = Num ax -> get points (n + 1) = Num ay ->
  get points (n + 2) = Num jx -> get points (n + 3) = Num jy ->
  get points (n + 4) = Num ex -> get points (n + 5) = Num ey ->
  exists b px py qx qy : R,
    br (corner points n) = Num b /\
    x1 (corner points n) = Num px /\ y1 (corner points n) = Num py /\
    x2 (corner points n) = Num qx /\ y2 (corner points n) = Num qy /\
    0 <= b <= Rmin (segment_length ax ay jx jy / 2) (segment_length jx jy ex ey / 2) /\
    b <= 40 /\
    ((ax <> jx \/ ay <> jy) -> (jx <> ex \/ jy <> ey) ->
     axis_or_diagonal (jx - ax) (jy - ay) ->
     strictly_between ax ay jx jy px py) /\
    ((ax <> jx \/ ay <> jy) -> (jx <> ex \/ jy <> ey) ->
     axis_or_diagonal (ex - jx) (ey - jy) ->
     strictly_between jx jy ex ey qx qy).
Proof.
  intros H0 H1 H2 H3 H4 H5.
  destruct (corner_reals points n ax ay jx jy ex ey H0 H1 H2 H3 H4 H5)
    as (Hbr & Hx1 & Hy1 & Hx2 & Hy2).
  set (b := Rmin (blend (jx - ax) (jy - ay)) (blend (ex - jx) (ey - jy))) in *.
  destruct (blend_bounds (jx - ax) (jy - ay)) as (Hb1 & Hc1 & Hm1 & Hl1).
  destruct (blend_bounds (ex - jx) (ey - jy)) as (Hb2 & Hc2 & Hm2 & Hl2).
  pose proof (Rmin_l (blend (jx - ax) (jy - ay)) (blend (ex - jx) (ey - jy))) as Hl.
  pose proof (Rmin_r (blend (jx - ax) (jy - ay)) (blend (ex - jx) (ey - jy))) as Hr.
  fold b in Hl, Hr.
  assert (Hpos : (ax <> jx \/ ay <> jy) -> (jx <> ex \/ jy <> ey) -> 0 < b).
  { intros Ha He. unfold b. apply Rmin_glb_lt; apply blend_pos.
    - destruct Ha; [left | right]; lra.
    - destruct He; [left | right]; lra. }
  eexists b, _, _, _, _.
  split; [exact Hbr|]. split; [exact Hx1|]. split; [exact Hy1|].
  split; [exact Hx2|]. split; [exact Hy2|].
  split; [|split; [lra|split]].
  - split.
    + unfold b. apply Rmin_glb; assumption.
    + unfold segment_length. apply Rmin_glb; lra.
  - intros Ha He Hax. apply pull_back_between; [assumption | auto | lra].
  - intros Ha He Hax. apply push_forward_between; [assumption | auto | lra].
Qed.

Lemma corner_within_segments_witness :
  exists b px py qx qy : R,
    br (corner (map Num [0; 0; 50; 0; 50; 50]) 0) = Num b /\
    x1 (corner (map Num [0; 0; 50; 0; 50; 50]) 0) = Num px /\
    y1 (corner (map Num [0; 0; 50; 0; 50; 50]) 0) = Num py /\
    x2 (corner (map Num [0; 0; 50; 0; 50; 50]) 0) = Num qx /\
    y2 (corner (map Num [0; 0; 50; 0; 50; 50]) 0) = Num qy /\
    0 <= b <= Rmin (segment_length 0 0 50 0 / 2) (segment_length 50 0 50 50 / 2) /\
    strictly_between 0 0 50 0 px py /\
    strictly_between 50 0 50 50 qx qy.
Proof.
  destruct (corner_within_segments (map Num [0; 0; 50; 0; 50; 50]) 0 0 0 50 0 50 50
              eq_refl eq_refl eq_refl eq_refl eq_refl eq_refl)
    as (b & px & py & qx & qy & Hb & Hx1 & Hy1 & Hx2 & Hy2 & Hbound & _ & Hin & Hout).
  exists b, px, py, qx, qy.
  repeat (split; [assumption|]).
  split.
  - apply Hin; [left; lra | right; lra | right; left; lra].
  - apply Hout; [left; lra | right; lra | left; lra].
Defined.

(** C3, as stated, fails at the joint of (0,0), (100,10), (200,10): the
    radius is 40 and the line is drawn to (60,-30), which is not on the
    segment from (0,0) to (100,10). *)
Lemma corner_leaves_slanted_segment :
  br (corner (map Num [0; 0; 100; 10; 200; 10]) 0) = Num 40 /\
  x1 (corner (map Num [0; 0; 100; 10; 200; 10]) 0) = Num 60 /\
  y1 (corner (map Num [0; 0; 100; 10; 200; 10]) 0) = Num (-30) /\
  ~ rounding_within_segments (map Num [0; 0; 100; 10; 200; 10]) 0.
Proof.
  assert (Hy1 : y1 (corner (map Num [0; 0; 100; 10; 200; 10]) 0) = Num (-30)).
  { js_eval. f_equal. lra. }
  split; [js_eval; f_equal; lra|].
  split; [js_eval; f_equal; lra|].
  split; [exact Hy1|].
  intros (ax & ay & jx & jy & ex & ey & b & px & py & qx & qy &
          G0 & G1 & G2 & G3 & _ & _ & _ & _ & Hpy & _ & _ & _ & Hin & _).
  rewrite Hy1 in Hpy.
  cbv [map get Z.ltb Z.add Z.compare Z.to_nat Pos.to_nat Pos.iter_op Init.Nat.add nth] in G1, G3.
  injection Hpy as Epy. injection G1 as Eay. injection G3 as Ejy.
  destruct Hin as (t & [Ht0 Ht1] & _ & Hty).
  subst py ay jy. nra.
Qed.

(** ** Hovering *)

Lemma dispatch_strokeWidth (cfg : Config) (node : Attrs) (e : pointer_event) :
  dispatch cfg node e !! "strokeWidth"%string =
  Some (ANum (Number (match e with
                      | Enter => ArrowHoveredStrokeWidth cfg
                      | Leave => ArrowStrokeWidth cfg
                      end))).
Proof.
  destruct e; unfold dispatch, GenericArrow.onMouseEnter, GenericArrow.onMouseLeave,
    setHoveredStyle, setUnhoveredStyle;
    apply lookup_union_Some_l, lookup_singleton_eq.
Qed.

Lemma dispatch_other (cfg : Config) (node : Attrs) (e : pointer_event) (name : string) :
  name <> "strokeWidth"%string ->
  dispatch cfg node e !! name = node !! name.
Proof.
  intros Hne.
  destruct e; unfold dispatch, GenericArrow.onMouseEnter, GenericArrow.onMouseLeave,
    setHoveredStyle, setUnhoveredStyle;
    apply lookup_union_r, lookup_singleton_ne; congruence.
Qed.

Lemma dispatch_all_other (cfg : Config) (events : list pointer_event) :
  forall (node : Attrs) (name : string),
    name <> "strokeWidth"%string ->
    dispatch_all cfg events node !! name = node !! name.
Proof.
  unfold dispatch_all.
  induction events as [|e events IH]; intros node name Hne; simpl; [reflexivity|].
  rewrite IH by exact Hne. now apply dispatch_other.
Qed.

Lemma dispatch_all_snoc (cfg : Config) (events : list pointer_event)
    (e : pointer_event) (node : Attrs) :
  dispatch_all cfg (events ++ [e]) node = dispatch cfg (dispatch_all cfg events node) e.
Proof. unfold dispatch_all. now rewrite fold_left_app. Qed.

Lemma strokedProps_strokeWidth (cfg : Config) :
  GenericArrow.strokedProps cfg !! "strokeWidth"%string =
  Some (ANum (Number (ArrowStrokeWidth cfg))).
Proof.
  unfold GenericArrow.strokedProps.
  rewrite lookup_insert_ne by discriminate. apply lookup_insert_eq.
Qed.

(** C8: whatever the pointer did before, after a leave the stroke width of
    the node is [Number(Config.ArrowStrokeWidth)] and after an enter it is
    [Number(Config.ArrowHoveredStrokeWidth)]; no event changes an attribute
    of another name; and the shape as [draw] made it is the same shape
    again after any events that end in a leave. *)
Theorem hover_changes_stroke_width_only (cfg : Config) (events : list pointer_event)
    (node : Attrs) :
  dispatch_all cfg (events ++ [Leave]) node !! "strokeWidth"%string =
    Some (ANum (Number (ArrowStrokeWidth cfg))) /\
  dispatch_all cfg (events ++ [Enter]) node !! "strokeWidth"%string =
    Some (ANum (Number (ArrowHoveredStrokeWidth cfg))) /\
  (forall name : string,
     name <> "strokeWidth"%string ->
     dispatch_all cfg events node !! name = node !! name) /\
  dispatch_all cfg (events ++ [Leave]) (GenericArrow.strokedProps cfg) =
    GenericArrow.strokedProps cfg.
Proof.
  split; [|split; [|split]].
  - rewrite dispatch_all_snoc. apply (dispatch_strokeWidth cfg _ Leave).
  - rewrite dispatch_all_snoc. apply (dispatch_strokeWidth cfg _ Enter).
  - intros name Hne. now apply dispatch_all_other.
  - apply map_eq. intros name.
    destruct (decide (name = "strokeWidth"%string)) as [-> | Hne].
    + rewrite dispatch_all_snoc, (dispatch_strokeWidth cfg _ Leave).
      symmetry. apply strokedProps_strokeWidth.
    + now apply dispatch_all_other.
Qed.

(** ** Rendering again *)

Lemma Composite_sceneFunc_appends (points : list js) (ctx : Context) :
  Composite.sceneFunc {| scene_points := points; scene_ctx := ctx |} =
  {| scene_points := points; scene_ctx := ctx ++ emitted Composite.sceneFunc points |}.
Proof.
  apply Scene_eq; [apply Composite_sceneFunc_points|].
  unfold emitted. rewrite !Composite_sceneFunc_ctx, !drawPath_ctx. simpl.
  now rewrite <- !app_assoc.
Qed.

Lemma Integrated_sceneFunc_appends (points : list js) (ctx : Context) :
  Integrated.sceneFunc {| scene_points := points; scene_ctx := ctx |} =
  {| scene_points := points; scene_ctx := ctx ++ emitted Integrated.sceneFunc points |}.
Proof.
  apply Scene_eq; [apply Integrated_sceneFunc_points|].
  unfold emitted. rewrite !Integrated_sceneFunc_ctx, !drawPath_ctx. simpl.
  now rewrite <- !app_assoc.
Qed.

(** C9: a call of [sceneFunc] leaves the [points] array as it was and adds
    to the context commands that depend on the array only, so a second
    call adds the same commands again; the same holds for the shapes
    [draw] returns, whatever the context, and [draw] leaves the instance,
    its [from] and [target] included, as it was. *)
Theorem rendering_is_repeatable (cfg : Config) (h : Heap) (points : list js) (ctx : Context) :
  let s := {| scene_points := points; scene_ctx := ctx |} in
  Composite.sceneFunc s =
    {| scene_points := points; scene_ctx := ctx ++ emitted Composite.sceneFunc points |} /\
  Composite.sceneFunc (Composite.sceneFunc s) =
    {| scene_points := points;
       scene_ctx := (ctx ++ emitted Composite.sceneFunc points) ++
                    emitted Composite.sceneFunc points |} /\
  Integrated.sceneFunc s =
    {| scene_points := points; scene_ctx := ctx ++ emitted Integrated.sceneFunc points |} /\
  Integrated.sceneFunc (Integrated.sceneFunc s) =
    {| scene_points := points;
       scene_ctx := (ctx ++ emitted Integrated.sceneFunc points) ++
                    emitted Integrated.sceneFunc points |} /\
  (let path := Composite.path (fst (Composite.draw cfg h)) in
   render path ctx = Some (ctx ++ emitted Composite.sceneFunc (shape_points path))) /\
  (let shape := Integrated.shape (fst (Integrated.draw cfg h)) in
   render shape ctx = Some (ctx ++ emitted Integrated.sceneFunc (shape_points shape))) /\
  this (snd (Composite.draw cfg h)) = this h /\
  this (snd (Integrated.draw cfg h)) = this h.
Proof.
  cbv zeta. repeat split.
  - apply Composite_sceneFunc_appends.
  - now rewrite !Composite_sceneFunc_appends.
  - apply Integrated_sceneFunc_appends.
  - now rewrite !Integrated_sceneFunc_appends.
  - unfold render, Composite.draw, Composite.draw_with.
    cbn [fst Composite.path shape_sceneFunc shape_points].
    rewrite Composite_sceneFunc_appends. reflexivity.
  - unfold render, Integrated.draw, Integrated.draw_with.
    cbn [fst Integrated.shape shape_sceneFunc shape_points].
    rewrite Integrated_sceneFunc_appends. reflexivity.
Qed.

(** ** Keys *)

Lemma draw_each_keys {E : Type} (draw : Heap -> E * Heap) (key_of : E -> Z) :
  (forall h, key_of (fst (draw h)) = Layout_key h) ->
  (forall h, Layout_key (snd (draw h)) = (Layout_key h + 1)%Z) ->
  (forall h, this (snd (draw h)) = this h) ->
  forall (arrows : list GenericArrow.t) (k : Z),
    let '(els, arrows', k') := draw_each draw arrows k in
    map key_of els = map (fun i => (k + Z.of_nat i)%Z) (seq 0 (length arrows)) /\
    arrows' = arrows /\
    k' = (k + Z.of_nat (length arrows))%Z.
Proof.
  intros Hkey Hnext Hthis arrows.
  induction arrows as [|arrow arrows IH]; intros k; simpl.
  - repeat split. lia.
  - specialize (Hkey {| this := arrow; Layout_key := k |}).
    specialize (Hnext {| this := arrow; Layout_key := k |}).
    specialize (Hthis {| this := arrow; Layout_key := k |}).
    destruct (draw {| this := arrow; Layout_key := k |}) as [el h]. simpl in *.
    specialize (IH (Layout_key h)).
    destruct (draw_each draw arrows (Layout_key h)) as [[els arrows'] k'].
    destruct IH as (IHk & IHa & IHn). rewrite Hnext in *.
    split; [|split].
    + cbn [map seq]. rewrite Hkey, IHk, <- seq_shift, map_map. f_equal; [lia|].
      apply map_ext. intros i. lia.
    + now rewrite Hthis, IHa.
    + lia.
Qed.

Lemma consecutive_NoDup (k : Z) (n : nat) :
  NoDup (map (fun i => (k + Z.of_nat i)%Z) (seq 0 n)).
Proof.
  assert (Hinj : Inj eq eq (fun i : nat => (k + Z.of_nat i)%Z)).
  { intros i j Hij. lia. }
  apply (NoDup_fmap_2 _), NoDup_seq.
Qed.

(** C10: a call of [draw], whatever steps [calculateSteps] gives, keys its
    element with the [Layout.key] it finds, leaves [Layout.key] one higher and
    leaves the instance as it was; so the elements of successive calls, on
    whatever instances, carry the consecutive keys from the first
    [Layout.key] on, no two of them equal. *)
Theorem draw_takes_next_key (cfg : Config) (calculateSteps : GenericArrow.t -> StepsArray)
    (h : Heap) (arrows : list GenericArrow.t) (k : Z) :
  (let r := Composite.draw_with calculateSteps cfg h in
   Composite.key (fst r) = Layout_key h /\
   Layout_key (snd r) = (Layout_key h + 1)%Z /\
   this (snd r) = this h) /\
  (let r := Integrated.draw_with calculateSteps cfg h in
   Integrated.key (fst r) = Layout_key h /\
   Layout_key (snd r) = (Layout_key h + 1)%Z /\
   this (snd r) = this h) /\
  (let '(els, arrows', k') :=
     draw_each (Composite.draw_with calculateSteps cfg) arrows k in
   map Composite.key els = map (fun i => (k + Z.of_nat i)%Z) (seq 0 (length arrows)) /\
   NoDup (map Composite.key els) /\
   arrows' = arrows /\
   k' = (k + Z.of_nat (length arrows))%Z) /\
  (let '(els, arrows', k') :=
     draw_each (Integrated.draw_with calculateSteps cfg) arrows k in
   map Integrated.key els = map (fun i => (k + Z.of_nat i)%Z) (seq 0 (length arrows)) /\
   NoDup (map Integrated.key els) /\
   arrows' = arrows /\
   k' = (k + Z.of_nat (length arrows))%Z).
Proof.
  split; [repeat split|]. split; [repeat split|]. split.
  - pose proof (draw_each_keys (Composite.draw_with calculateSteps cfg) Composite.key
                  (fun _ => eq_refl) (fun _ => eq_refl) (fun _ => eq_refl) arrows k) as H.
    destruct (draw_each _ arrows k) as [[els arrows'] k'].
    destruct H as (Hk & Ha & Hn).
    repeat split; try assumption. rewrite Hk. apply consecutive_NoDup.
  - pose proof (draw_each_keys (Integrated.draw_with calculateSteps cfg) Integrated.key
                  (fun _ => eq_refl) (fun _ => eq_refl) (fun _ => eq_refl) arrows k) as H.
    destruct (draw_each _ arrows k) as [[els arrows'] k'].
    destruct H as (Hk & Ha & Hn).
    repeat split; try assumption. rewrite Hk. apply consecutive_NoDup.
Qed.

(** * Further properties *)

(** ** The instance *)

Lemma to_frame (a : GenericArrow.t) (t : Visible) :
  GenericArrow.x (GenericArrow.to a t) = GenericArrow.x a /\
  GenericArrow.y (GenericArrow.to a t) = GenericArrow.y a /\
  GenericArrow.points (GenericArrow.to a t) = GenericArrow.points a /\
  GenericArrow.from (GenericArrow.to a t) = GenericArrow.from a.
Proof. repeat split. Qed.

Lemma built_snoc (from : Visible) (targets : list Visible) (t : Visible) :
  built from (targets ++ [t]) = GenericArrow.to (built from targets) t.
Proof. unfold built. now rewrite fold_left_app. Qed.

Lemma built_frame (from : Visible) (targets : list Visible) :
  GenericArrow.x (built from targets) = vx from /\
  GenericArrow.y (built from targets) = vy from /\
  GenericArrow.points (built from targets) = [] /\
  GenericArrow.from (built from targets) = from.
Proof.
  induction targets as [|t targets IH] using rev_ind.
  - repeat split.
  - rewrite built_snoc. destruct (to_frame (built from targets) t) as (-> & -> & -> & ->).
    exact IH.
Qed.

(** X1: however often [to] was called before, after [to(t)] the instance is
    the one a single [to(t)] on the fresh instance gives: the target is [t]
    and width and height are the absolute differences between [t] and
    [from]; nothing of an earlier target is left. *)
Theorem to_last_wins (from : Visible) (targets : list Visible) (t : Visible) :
  built from (targets ++ [t]) = GenericArrow.to (GenericArrow.constructor from) t /\
  GenericArrow.target (built from (targets ++ [t])) = Some t /\
  GenericArrow.width (built from (targets ++ [t])) = Math.abs (js_sub (vx t) (vx from)) /\
  GenericArrow.height (built from (targets ++ [t])) = Math.abs (js_sub (vy t) (vy from)).
Proof.
  rewrite built_snoc.
  destruct (built_frame from targets) as (Hx & Hy & Hp & Hf).
  assert (H : GenericArrow.to (built from targets) t =
              GenericArrow.to (GenericArrow.constructor from) t).
  { unfold GenericArrow.to. rewrite Hx, Hy, Hp, Hf. reflexivity. }
  rewrite H. repeat split.
Qed.

Lemma perform_all (cfg : Config) (calculateSteps : GenericArrow.t -> StepsArray)
    (actions : list action) : forall h : Heap,
  let h' := fold_left (perform cfg calculateSteps) actions h in
  this h' = fold_left GenericArrow.to (targets_of actions) (this h) /\
  Layout_key h' = (Layout_key h + Z.of_nat (draws_of actions))%Z.
Proof.
  induction actions as [|a actions IH]; intros h; cbv zeta.
  - simpl. split; [reflexivity | lia].
  - cbn [fold_left]. destruct (IH (perform cfg calculateSteps h a)) as [Ht Hk].
    cbv zeta in Ht, Hk. rewrite Ht, Hk.
    destruct a; cbn [perform targets_of draws_of fold_left this Layout_key snd
      Composite.draw_with Integrated.draw_with]; split; try reflexivity; lia.
Qed.

(** X2: [draw], of either version and whatever [calculateSteps] gives,
    leaves every field of the instance as it was, and the points it
    computes go to the element only.  So after any sequence of [to]s and
    [draw]s on a fresh instance, the instance is the one the [to]s alone
    give: [x], [y] and [from] are those of the anchor, the field [points] is
    still empty, and [Layout.key] has grown by the number of [draw]s. *)
Theorem instance_points_stay_empty (cfg : Config)
    (calculateSteps : GenericArrow.t -> StepsArray)
    (from : Visible) (actions : list action) (k : Z) :
  let fresh := {| this := GenericArrow.constructor from; Layout_key := k |} in
  let h := fold_left (perform cfg calculateSteps) actions fresh in
  (forall h0 : Heap, this (snd (Composite.draw_with calculateSteps cfg h0)) = this h0) /\
  (forall h0 : Heap, this (snd (Integrated.draw_with calculateSteps cfg h0)) = this h0) /\
  this h = built from (targets_of actions) /\
  Layout_key h = (k + Z.of_nat (draws_of actions))%Z /\
  GenericArrow.x (this h) = vx from /\ GenericArrow.y (this h) = vy from /\
  GenericArrow.from (this h) = from /\ GenericArrow.points (this h) = [] /\
  shape_points (Composite.path (fst (Composite.draw_with calculateSteps cfg h))) =
    GenericArrow.plan from (calculateSteps (this h)) /\
  shape_points (Composite.arrow (fst (Composite.draw_with calculateSteps cfg h))) =
    GenericArrow.plan from (calculateSteps (this h)) /\
  shape_points (Integrated.shape (fst (Integrated.draw_with calculateSteps cfg h))) =
    GenericArrow.plan from (calculateSteps (this h)).
Proof.
  cbv zeta.
  destruct (perform_all cfg calculateSteps actions
              {| this := GenericArrow.constructor from; Layout_key := k |}) as [Ht Hk].
  cbv zeta in Ht, Hk. cbn [this Layout_key] in Ht, Hk. fold (built from (targets_of actions)) in Ht.
  destruct (built_frame from (targets_of actions)) as (Hx & Hy & Hp & Hf).
  split; [reflexivity|]. split; [reflexivity|].
  split; [exact Ht|]. split; [exact Hk|].
  rewrite Ht. split; [exact Hx|]. split; [exact Hy|]. split; [exact Hf|]. split; [exact Hp|].
  unfold Composite.draw_with, Integrated.draw_with.
  cbn [fst Composite.path Composite.arrow Integrated.shape shape_points].
  rewrite Ht, Hf. repeat split.
Qed.

(** X3: for an anchor and a target with numbers for coordinates, width and
    height are numbers that are not negative, are the same when anchor and
    target change places, and are zero exactly when the two have the same
    [x], the same [y]. *)
Theorem bounding_box (fx fy tx ty : R) :
  let from := {| vx := Num fx; vy := Num fy |} in
  let target := {| vx := Num tx; vy := Num ty |} in
  let a := GenericArrow.to (GenericArrow.constructor from) target in
  let b := GenericArrow.to (GenericArrow.constructor target) from in
  GenericArrow.width a = Num (Rabs (tx - fx)) /\
  GenericArrow.height a = Num (Rabs (ty - fy)) /\
  0 <= Rabs (tx - fx) /\ 0 <= Rabs (ty - fy) /\
  GenericArrow.width b = GenericArrow.width a /\
  GenericArrow.height b = GenericArrow.height a /\
  (GenericArrow.width a = Num 0 <-> tx = fx) /\
  (GenericArrow.height a = Num 0 <-> ty = fy).
Proof.
  cbv zeta. cbn [GenericArrow.to GenericArrow.constructor GenericArrow.width
    GenericArrow.height GenericArrow.from vx vy Math.abs js_un js_sub js_bin].
  assert (Hzero : forall u v : R, Num (Rabs (u - v)) = Num 0 <-> u = v).
  { intros u v. split.
    - intros E. injection E as E.
      destruct (Req_dec (u - v) 0) as [E0 | N0]; [lra|].
      apply Rabs_no_R0 in N0. contradiction.
    - intros ->. now rewrite Rminus_diag, Rabs_R0. }
  repeat split; try apply Rabs_pos; try (f_equal; apply Rabs_minus_sym);
    try (apply Hzero); try (intros E; now apply Hzero).
Qed.

(** ** The planner, further *)

Lemma plan_is_follow (origin : Visible) (steps : StepsArray) :
  GenericArrow.plan origin steps = follow (vx origin) (vy origin) steps.
Proof.
  unfold GenericArrow.plan, GenericArrow.splice_0_2, GenericArrow.accumulate.
  pose proof (accumulate_follow steps [] (vx origin) (vy origin)) as H.
  simpl app in H. now rewrite H.
Qed.

Lemma accumulate_is_follow (origin : Visible) (steps : StepsArray) :
  GenericArrow.accumulate origin steps =
  [vx origin; vy origin] ++ follow (vx origin) (vy origin) steps.
Proof. exact (accumulate_follow steps [] (vx origin) (vy origin)). Qed.

Lemma follow_app (s1 : StepsArray) : forall (s2 : StepsArray) (x y : js),
  follow x y (s1 ++ s2) =
  follow x y s1 ++ follow (fst (endpoint x y s1)) (snd (endpoint x y s1)) s2.
Proof.
  induction s1 as [|step s1 IH]; intros s2 x y; simpl; [reflexivity|].
  now rewrite IH.
Qed.

Lemma last_two_endpoint (steps : StepsArray) : forall (pre : list js) (x y : js),
  let acc := pre ++ [x; y] ++ follow x y steps in
  get acc (len acc - 2) = fst (endpoint x y steps) /\
  get acc (len acc - 1) = snd (endpoint x y steps).
Proof.
  induction steps as [|step steps IH]; intros pre x y; cbv zeta.
  - simpl follow. rewrite app_nil_r, len_app. change (len [x; y]) with 2%Z.
    replace (len pre + 2 - 2)%Z with (Z.of_nat (length pre) + Z.of_nat 0)%Z
      by (unfold len; lia).
    replace (len pre + 2 - 1)%Z with (Z.of_nat (length pre) + Z.of_nat 1)%Z
      by (unfold len; lia).
    now rewrite !get_app_r.
  - simpl follow. simpl endpoint.
    specialize (IH (pre ++ [x; y]) (fst (step x y)) (snd (step x y))).
    cbv zeta in IH. rewrite <- !app_assoc in IH. exact IH.
Qed.

(** X4: planning steps [s1] followed by steps [s2] gives the points of [s1]
    followed by the points of [s2] planned from where [s1] ended, that is
    from the last two values [reduce] had accumulated; and whatever the
    steps before it, a last step to fixed coordinates makes these the last
    point drawn. *)
Theorem plan_in_two_legs (origin : Visible) (s1 s2 : StepsArray) (to : Visible) :
  (let acc := GenericArrow.accumulate origin s1 in
   let middle := {| vx := get acc (len acc - 2); vy := get acc (len acc - 1) |} in
   GenericArrow.plan origin (s1 ++ s2) =
   GenericArrow.plan origin s1 ++ GenericArrow.plan middle s2) /\
  GenericArrow.plan origin (s1 ++ [fun _ _ => (vx to, vy to)]) =
    GenericArrow.plan origin s1 ++ [vx to; vy to].
Proof.
  assert (Hlegs : forall s2',
    GenericArrow.plan origin (s1 ++ s2') =
    GenericArrow.plan origin s1 ++
    GenericArrow.plan
      {| vx := get (GenericArrow.accumulate origin s1)
                   (len (GenericArrow.accumulate origin s1) - 2);
         vy := get (GenericArrow.accumulate origin s1)
                   (len (GenericArrow.accumulate origin s1) - 1) |} s2').
  { intros s2'. rewrite !plan_is_follow, follow_app, accumulate_is_follow.
    destruct (last_two_endpoint s1 [] (vx origin) (vy origin)) as [Hx Hy].
    cbv zeta in Hx, Hy. simpl app in Hx, Hy. simpl app.
    cbn [vx vy]. now rewrite Hx, Hy. }
  split; [apply Hlegs|].
  rewrite Hlegs. reflexivity.
Qed.

Lemma follow_relative (offsets : list (R * R)) : forall (x y : R) (i : nat),
  (i < length offsets)%nat ->
  let pts := follow (Num x) (Num y)
               (map (fun o => relative_step (fst o) (snd o)) offsets) in
  nth (2 * i) pts Undefined = Num (x + sum_dx (firstn (S i) offsets)) /\
  nth (2 * i + 1) pts Undefined = Num (y + sum_dy (firstn (S i) offsets)).
Proof.
  induction offsets as [|[dx dy] offsets IH]; intros x y i Hi; [simpl in Hi; lia|].
  cbv zeta. destruct i as [|i].
  - simpl. unfold sum_dx, sum_dy. simpl. split; f_equal; lra.
  - replace (2 * S i)%nat with (S (S (2 * i))) by lia.
    replace (S (S (2 * i)) + 1)%nat with (S (S (2 * i + 1))) by lia.
    simpl in Hi. destruct (IH (x + dx) (y + dy) i ltac:(lia)) as [Hx Hy].
    cbv zeta in Hx, Hy.
    change (map (fun o => relative_step (fst o) (snd o)) ((dx, dy) :: offsets))
      with (relative_step dx dy :: map (fun o => relative_step (fst o) (snd o)) offsets).
    cbn [follow relative_step fst snd js_add js_bin nth].
    rewrite Hx, Hy.
    change (firstn (S (S i)) ((dx, dy) :: offsets))
      with ((dx, dy) :: firstn (S i) offsets).
    unfold sum_dx, sum_dy. cbn [map fold_right fst snd].
    split; f_equal; lra.
Qed.

(** X5: with steps of the form [(x, y) => [x + dx, y + dy]] from an anchor
    with numbers for coordinates, the point of index [i] that [draw] computes
    is the anchor moved by the sum of the offsets up to and including the
    one of index [i], as the comment on [calculateSteps] has it. *)
Theorem relative_steps_add_up (fx fy : R) (offsets : list (R * R)) (i : nat) :
  (i < length offsets)%nat ->
  let pts := GenericArrow.plan {| vx := Num fx; vy := Num fy |}
               (map (fun o => relative_step (fst o) (snd o)) offsets) in
  get pts (2 * Z.of_nat i) = Num (fx + sum_dx (firstn (S i) offsets)) /\
  get pts (2 * Z.of_nat i + 1) = Num (fy + sum_dy (firstn (S i) offsets)).
Proof.
  intros Hi. cbv zeta. rewrite plan_is_follow. cbn [vx vy].
  destruct (follow_relative offsets fx fy i Hi) as [Hx Hy]. cbv zeta in Hx, Hy.
  replace (2 * Z.of_nat i)%Z with (Z.of_nat (2 * i)) by lia.
  replace (Z.of_nat (2 * i) + 1)%Z with (Z.of_nat (2 * i + 1)) by lia.
  now rewrite !get_nth, Hx, Hy.
Qed.

Lemma relative_steps_add_up_witness :
  (1 < length [(10, 0); (0, 5); (3, 3)])%nat /\
  get (GenericArrow.plan {| vx := Num 1; vy := Num 2 |}
         (map (fun o => relative_step (fst o) (snd o)) [(10, 0); (0, 5); (3, 3)]))
      (2 * Z.of_nat 1) =
  Num (1 + sum_dx (firstn 2 [(10, 0); (0, 5); (3, 3)])).
Proof.
  assert (Hi : (1 < length [(10, 0); (0, 5); (3, 3)])%nat) by (simpl; lia).
  split; [exact Hi|].
  exact (proj1 (relative_steps_add_up 1 2 [(10, 0); (0, 5); (3, 3)] 1 Hi)).
Defined.

(** ** The renderer, further *)

Lemma emitted_uniform (points : list js) :
  emitted Composite.sceneFunc points =
    [BeginPath; MoveTo (get points 0) (get points 1)] ++
    flat_map (corner_cmds points) (joints points) ++
    [LineTo (get points (len points - 2)) (get points (len points - 1)); StrokeShape] /\
  emitted Integrated.sceneFunc points =
    [BeginPath; MoveTo (get points 0) (get points 1)] ++
    flat_map (corner_cmds points) (joints points) ++
    [LineTo (get points (len points - 2)) (get points (len points - 1))] ++
    chevron (get points (len points - 2)) (get points (len points - 1)) (angle_of points) ++
    [StrokeShape].
Proof.
  rewrite emitted_Composite, emitted_Integrated.
  destruct (Z.eqb_spec (len points) 4) as [E | _].
  - rewrite joints_short by lia. rewrite E. split; reflexivity.
  - rewrite <- !app_assoc. split; reflexivity.
Qed.

(** X6: the branch for [points.length === 4] is a case of the other one: for
    every array, of length 4 or not, [sceneFunc] begins the path, moves to
    the first two entries, draws the corner of each joint in order, draws
    the line to the last two entries (in the integrated version, the
    chevron) and strokes. *)
Theorem branches_agree (points : list js) :
  emitted Composite.sceneFunc points =
    [BeginPath; MoveTo (get points 0) (get points 1)] ++
    flat_map (corner_cmds points) (joints points) ++
    [LineTo (get points (len points - 2)) (get points (len points - 1)); StrokeShape] /\
  emitted Integrated.sceneFunc points =
    [BeginPath; MoveTo (get points 0) (get points 1)] ++
    flat_map (corner_cmds points) (joints points) ++
    [LineTo (get points (len points - 2)) (get points (len points - 1))] ++
    chevron (get points (len points - 2)) (get points (len points - 1)) (angle_of points) ++
    [StrokeShape].
Proof. exact (emitted_uniform points). Qed.

(** X7: the integrated [sceneFunc] calls the context as the composite one
    does, with the three calls of the chevron put in before the final
    [strokeShape]. *)
Theorem integrated_is_composite_with_chevron (points : list js) :
  emitted Integrated.sceneFunc points =
  removelast (emitted Composite.sceneFunc points) ++
  chevron (get points (len points - 2)) (get points (len points - 1)) (angle_of points) ++
  [StrokeShape].
Proof.
  unfold emitted. rewrite Integrated_sceneFunc_ctx, Composite_sceneFunc_ctx.
  rewrite removelast_last. reflexivity.
Qed.

Lemma counters_length (fuel : nat) : forall (n L : Z),
  (L - 4 - n <= Z.of_nat fuel)%Z ->
  length (counters fuel n L) = Z.to_nat ((L - 3 - n) / 2).
Proof.
  induction fuel as [|fuel IH]; intros n L Hfuel; simpl.
  - assert ((L - 3 - n) / 2 < 1)%Z by (apply Z.div_lt_upper_bound; lia). lia.
  - destruct (Z.ltb_spec n (L - 4)).
    + simpl. rewrite IH by lia.
      replace (L - 3 - n)%Z with ((L - 3 - (n + 2)) + 1 * 2)%Z by lia.
      rewrite Z.div_add by lia.
      assert (0 <= (L - 3 - (n + 2)) / 2)%Z by (apply Z.div_pos; lia). lia.
    + assert ((L - 3 - n) / 2 < 1)%Z by (apply Z.div_lt_upper_bound; lia). simpl. lia.
Qed.

Lemma joints_length (points : list js) :
  length (joints points) = Z.to_nat ((len points - 3) / 2).
Proof.
  unfold joints. rewrite counters_length by (unfold len; lia). now rewrite Z.sub_0_r.
Qed.

Lemma corners_curves (points : list js) (js : list Z) :
  length (List.filter is_curve (flat_map (corner_cmds points) js)) = length js.
Proof.
  induction js as [|n js IH]; simpl; [reflexivity|]. now rewrite IH.
Qed.

Lemma corners_length (points : list js) (js : list Z) :
  length (flat_map (corner_cmds points) js) = (2 * length js)%nat.
Proof.
  induction js as [|n js IH]; simpl; [reflexivity|]. rewrite IH. lia.
Qed.

(** X8: for an array of [k] points, [k] at least 2, [sceneFunc] rounds
    [k - 2] corners: it emits [k - 2] quadratic curves, and the composite
    version makes as many calls on the context as the array has values, the
    integrated one three more. *)
Theorem one_curve_per_inner_point (points : list js) (k : nat) :
  length points = (2 * k)%nat -> (2 <= k)%nat ->
  length (joints points) = (k - 2)%nat /\
  length (List.filter is_curve (emitted Composite.sceneFunc points)) = (k - 2)%nat /\
  length (List.filter is_curve (emitted Integrated.sceneFunc points)) = (k - 2)%nat /\
  length (emitted Composite.sceneFunc points) = length points /\
  length (emitted Integrated.sceneFunc points) = (length points + 3)%nat.
Proof.
  intros Hlen Hk.
  assert (Hj : length (joints points) = (k - 2)%nat).
  { rewrite joints_length. unfold len. rewrite Hlen.
    replace (Z.of_nat (2 * k) - 3)%Z with (1 + (Z.of_nat k - 2) * 2)%Z by lia.
    rewrite Z.div_add by lia. change (1 / 2)%Z with 0%Z. lia. }
  destruct (emitted_uniform points) as [Hc Hi].
  split; [exact Hj|].
  rewrite Hc, Hi. repeat split.
  - cbn [app List.filter is_curve].
    rewrite List.filter_app, length_app, corners_curves, Hj. simpl. lia.
  - cbn [app List.filter is_curve].
    rewrite List.filter_app, length_app, corners_curves, Hj. simpl. lia.
  - cbn [app length]. rewrite length_app, corners_length, Hj, Hlen. simpl. lia.
  - cbn [app length]. rewrite length_app, corners_length, Hj, Hlen. simpl. lia.
Qed.

Lemma one_curve_per_inner_point_witness :
  length (map Num [0; 0; 50; 0; 50; 50]) = (2 * 3)%nat /\ (2 <= 3)%nat /\
  length (List.filter is_curve (emitted Composite.sceneFunc (map Num [0; 0; 50; 0; 50; 50])))
    = (3 - 2)%nat.
Proof.
  assert (Hlen : length (map Num [0; 0; 50; 0; 50; 50]) = (2 * 3)%nat) by reflexivity.
  assert (Hk : (2 <= 3)%nat) by lia.
  split; [exact Hlen|]. split; [exact Hk|].
  exact (proj1 (proj2 (one_curve_per_inner_point _ 3 Hlen Hk))).
Defined.

(** ** Numbers in, numbers out *)

Lemma get_finite (points : list js) (i : Z) :
  forallb finite points = true -> (0 <= i < len points)%Z ->
  exists r : R, get points i = Num r.
Proof.
  intros Hall Hi. unfold get, len in *.
  destruct (Z.ltb_spec i 0); [lia|].
  assert (Hin : In (nth (Z.to_nat i) points Undefined) points) by (apply nth_In; lia).
  rewrite forallb_forall in Hall. specialize (Hall _ Hin).
  destruct (nth (Z.to_nat i) points Undefined) as [| |r]; try discriminate.
  now exists r.
Qed.

Lemma corner_cmds_finite (points : list js) (n : Z) :
  forallb finite points = true -> (0 <= n)%Z -> (n + 5 < len points)%Z ->
  forallb cmd_finite (corner_cmds points n) = true.
Proof.
  intros Hall H0 H5.
  destruct (get_finite points n Hall ltac:(lia)) as [ax Hax].
  destruct (get_finite points (n + 1) Hall ltac:(lia)) as [ay Hay].
  destruct (get_finite points (n + 2) Hall ltac:(lia)) as [jx Hjx].
  destruct (get_finite points (n + 3) Hall ltac:(lia)) as [jy Hjy].
  destruct (get_finite points (n + 4) Hall ltac:(lia)) as [ex Hex].
  destruct (get_finite points (n + 5) Hall ltac:(lia)) as [ey Hey].
  destruct (corner_reals points n ax ay jx jy ex ey Hax Hay Hjx Hjy Hex Hey)
    as (_ & Hx1 & Hy1 & Hx2 & Hy2).
  unfold corner_cmds. cbv zeta. rewrite Hx1, Hy1, Hx2, Hy2, Hjx, Hjy. reflexivity.
Qed.

Lemma joints_in_range (points : list js) (n : Z) :
  Z.even (len points) = true -> In n (joints points) ->
  (0 <= n)%Z /\ (n + 5 < len points)%Z.
Proof.
  intros Heven Hin. apply joints_spec in Hin. destruct Hin as [Hr Hn].
  apply Z.even_spec in Heven. destruct Heven as [l Hl].
  apply Z.even_spec in Hn. destruct Hn as [m Hm]. lia.
Qed.

Lemma array_renders_finite (points : list js) :
  forallb finite points = true -> Z.even (len points) = true -> (4 <= len points)%Z ->
  forallb cmd_finite (emitted Composite.sceneFunc points) = true /\
  forallb cmd_finite (emitted Integrated.sceneFunc points) = true.
Proof.
  intros Hall Heven Hlen.
  destruct (get_finite points 0 Hall ltac:(lia)) as [p0 Hp0].
  destruct (get_finite points 1 Hall ltac:(lia)) as [p1 Hp1].
  destruct (get_finite points (len points - 1) Hall ltac:(lia)) as [ty Hty].
  destruct (get_finite points (len points - 2) Hall ltac:(lia)) as [tx Htx].
  destruct (get_finite points (len points - 3) Hall ltac:(lia)) as [py Hpy].
  destruct (get_finite points (len points - 4) Hall ltac:(lia)) as [px Hpx].
  assert (Hcorners : forallb cmd_finite (flat_map (corner_cmds points) (joints points)) = true).
  { apply forallb_forall. intros c Hc. apply in_flat_map in Hc.
    destruct Hc as (n & Hn & Hc).
    destruct (joints_in_range points n Heven Hn) as [H0 H5].
    pose proof (corner_cmds_finite points n Hall H0 H5) as Hfin.
    rewrite forallb_forall in Hfin. now apply Hfin. }
  destruct (emitted_uniform points) as [Hc Hi].
  rewrite Hc, Hi. unfold angle_of. rewrite Hp0, Hp1, Htx, Hty, Hpx, Hpy.
  split.
  - cbn [app forallb cmd_finite finite andb]. rewrite forallb_app, Hcorners. reflexivity.
  - cbn [app forallb cmd_finite finite andb]. rewrite forallb_app, Hcorners. reflexivity.
Qed.

(** X9: for an array of at least two points, an even number of values that
    are all numbers, every argument of every call [sceneFunc] makes on the
    context is a number, in both versions: no [undefined] and no [NaN]
    reaches the canvas. *)
Theorem points_in_numbers_out (points : list js) :
  forallb finite points = true -> Z.even (len points) = true -> (4 <= len points)%Z ->
  forallb cmd_finite (emitted Composite.sceneFunc points) = true /\
  forallb cmd_finite (emitted Integrated.sceneFunc points) = true.
Proof. exact (array_renders_finite points). Qed.

Lemma points_in_numbers_out_witness :
  forallb finite (map Num [0; 0; 50; 0; 50; 50]) = true /\
  Z.even (len (map Num [0; 0; 50; 0; 50; 50])) = true /\
  (4 <= len (map Num [0; 0; 50; 0; 50; 50]%R))%Z /\
  forallb cmd_finite (emitted Integrated.sceneFunc (map Num [0; 0; 50; 0; 50; 50])) = true.
Proof.
  assert (Hall : forallb finite (map Num [0; 0; 50; 0; 50; 50]) = true) by reflexivity.
  assert (Heven : Z.even (len (map Num [0; 0; 50; 0; 50; 50])) = true) by reflexivity.
  assert (Hlen : (4 <= len (map Num [0; 0; 50; 0; 50; 50]%R))%Z) by (vm_compute; discriminate).
  split; [exact Hall|]. split; [exact Heven|]. split; [exact Hlen|].
  exact (proj2 (points_in_numbers_out _ Hall Heven Hlen)).
Defined.

Lemma follow_finite (steps : StepsArray) : forall x y : R,
  Forall finite_step steps ->
  forallb finite (follow (Num x) (Num y) steps) = true.
Proof.
  induction steps as [|step steps IH]; intros x y Hsteps; simpl; [reflexivity|].
  inversion Hsteps as [|? ? Hstep Hrest]; subst.
  destruct (Hstep x y) as (x' & y' & E). rewrite E. simpl. now apply IH.
Qed.

(** X10: when the anchor has numbers for coordinates and [calculateSteps]
    gives at least two steps, each returning numbers when given numbers,
    the [sceneFunc] of the shape [draw] returns passes only numbers to the
    context, in both versions. *)
Theorem two_steps_draw_numbers (cfg : Config)
    (calculateSteps : GenericArrow.t -> StepsArray) (h : Heap) (fx fy : R) :
  GenericArrow.from (this h) = {| vx := Num fx; vy := Num fy |} ->
  Forall finite_step (calculateSteps (this h)) ->
  (2 <= length (calculateSteps (this h)))%nat ->
  (exists cmds : list cmd,
     render (Composite.path (fst (Composite.draw_with calculateSteps cfg h))) [] = Some cmds /\
     forallb cmd_finite cmds = true) /\
  (exists cmds : list cmd,
     render (Integrated.shape (fst (Integrated.draw_with calculateSteps cfg h))) [] = Some cmds /\
     forallb cmd_finite cmds = true).
Proof.
  intros Hfrom Hsteps Hk.
  set (points := GenericArrow.plan (GenericArrow.from (this h)) (calculateSteps (this h))).
  assert (Hpts : points = follow (Num fx) (Num fy) (calculateSteps (this h))).
  { unfold points. rewrite plan_is_follow, Hfrom. reflexivity. }
  assert (Hall : forallb finite points = true).
  { rewrite Hpts. now apply follow_finite. }
  assert (Hlen : length points = (2 * length (calculateSteps (this h)))%nat).
  { rewrite Hpts. apply follow_length. }
  assert (Heven : Z.even (len points) = true).
  { unfold len. rewrite Hlen, Nat2Z.inj_mul. apply Z.even_mul. }
  assert (H4 : (4 <= len points)%Z) by (unfold len; lia).
  destruct (array_renders_finite points Hall Heven H4) as [Hc Hi].
  split.
  - exists (emitted Composite.sceneFunc points). split; [reflexivity | exact Hc].
  - exists (emitted Integrated.sceneFunc points). split; [reflexivity | exact Hi].
Qed.

Lemma two_steps_draw_numbers_witness :
  exists cmds : list cmd,
    render (Integrated.shape
              (fst (Integrated.draw_with
                      (fun _ => [relative_step 50 0; relative_step 0 50])
                      {| ArrowStrokeWidth := Num 1; ArrowHoveredStrokeWidth := Num 2;
                         ArrowHitStrokeWidth := Num 5; SA_WHITE := "white";
                         ShapeDefaultProps := ∅ |}
                      {| this := GenericArrow.constructor {| vx := Num 0; vy := Num 0 |};
                         Layout_key := 0 |}))) [] = Some cmds /\
    forallb cmd_finite cmds = true.
Proof.
  refine (proj2 (two_steps_draw_numbers _ (fun _ => [relative_step 50 0; relative_step 0 50])
                   {| this := GenericArrow.constructor {| vx := Num 0; vy := Num 0 |};
                      Layout_key := 0 |} 0 0 eq_refl _ _)).
  - repeat constructor; intros x y; eexists _, _; reflexivity.
  - simpl. lia.
Defined.

(** ** The geometry of a corner, further *)

Lemma blend_closed (dx dy : R) :
  blend dx dy = Rmin 40 (Rmax (Rabs dx) (Rabs dy) / 2).
Proof.
  unfold blend. f_equal.
  assert (Hx : Rabs (dx / 2) = Rabs dx / 2).
  { unfold Rdiv. rewrite Rabs_mult, (Rabs_pos_eq (/ 2)) by lra. reflexivity. }
  assert (Hy : Rabs (dy / 2) = Rabs dy / 2).
  { unfold Rdiv. rewrite Rabs_mult, (Rabs_pos_eq (/ 2)) by lra. reflexivity. }
  rewrite Hx, Hy.
  destruct (Rle_dec (Rabs dx) (Rabs dy)) as [L | G].
  - rewrite !Rmax_right by lra. reflexivity.
  - rewrite !Rmax_left by lra. reflexivity.
Qed.

Lemma Rmin_40_distr (u v : R) : Rmin (Rmin 40 u) (Rmin 40 v) = Rmin 40 (Rmin u v).
Proof.
  destruct (Rle_dec 40 u); destruct (Rle_dec 40 v); destruct (Rle_dec u v);
    real_eval; lra.
Qed.

Lemma Rmin_halves_zero (m1 m2 : R) :
  0 <= m1 -> 0 <= m2 ->
  (Rmin 40 (Rmin (m1 / 2) (m2 / 2)) = 0 <-> m1 = 0 \/ m2 = 0).
Proof.
  intros P1 P2.
  destruct (Rle_dec (m1 / 2) (m2 / 2)); destruct (Rle_dec 40 (m1 / 2));
    destruct (Rle_dec 40 (m2 / 2)); real_eval; lra.
Qed.

Lemma Rmax_abs_zero (dx dy : R) : Rmax (Rabs dx) (Rabs dy) = 0 <-> dx = 0 /\ dy = 0.
Proof.
  pose proof (Rabs_pos dx) as Px. pose proof (Rabs_pos dy) as Py.
  pose proof (Rmax_l (Rabs dx) (Rabs dy)) as Ml.
  pose proof (Rmax_r (Rabs dx) (Rabs dy)) as Mr.
  split.
  - intros E. split.
    + destruct (Req_dec dx 0) as [|N]; [assumption|]. apply Rabs_pos_lt in N. lra.
    + destruct (Req_dec dy 0) as [|N]; [assumption|]. apply Rabs_pos_lt in N. lra.
  - intros [-> ->]. rewrite Rabs_R0. apply Rmax_left. lra.
Qed.

(** X11: at a joint whose six surrounding coordinates are numbers the radius
    is the least of 40 and the halves of the larger coordinate difference of
    each segment; it is 40 when both of these differences are at least 80,
    and it is 0 exactly when one of the two segments is a single point. *)
Theorem corner_radius_closed_form (points : list js) (n : Z) (ax ay jx jy ex ey : R) :
  get points n = Num ax -> get points (n + 1) = Num ay ->
  get points (n + 2) = Num jx -> get points (n + 3) = Num jy ->
  get points (n + 4) = Num ex -> get points (n + 5) = Num ey ->
  let m1 := Rmax (Rabs (jx - ax)) (Rabs (jy - ay)) in
  let m2 := Rmax (Rabs (ex - jx)) (Rabs (ey - jy)) in
  br (corner points n) = Num (Rmin 40 (Rmin (m1 / 2) (m2 / 2))) /\
  (80 <= m1 -> 80 <= m2 -> br (corner points n) = Num 40) /\
  (br (corner points n) = Num 0 <-> (ax = jx /\ ay = jy) \/ (jx = ex /\ jy = ey)).
Proof.
  intros H0 H1 H2 H3 H4 H5 m1 m2.
  destruct (corner_reals points n ax ay jx jy ex ey H0 H1 H2 H3 H4 H5) as (Hbr & _).
  rewrite !blend_closed, Rmin_40_distr in Hbr. fold m1 m2 in Hbr.
  pose proof (Rmax_abs_zero (jx - ax) (jy - ay)) as Z1.
  pose proof (Rmax_abs_zero (ex - jx) (ey - jy)) as Z2.
  fold m1 in Z1. fold m2 in Z2.
  assert (P1 : 0 <= m1).
  { apply Rle_trans with (Rabs (jx - ax)); [apply Rabs_pos | apply Rmax_l]. }
  assert (P2 : 0 <= m2).
  { apply Rle_trans with (Rabs (ex - jx)); [apply Rabs_pos | apply Rmax_l]. }
  split; [exact Hbr|]. split.
  - intros L1 L2. rewrite Hbr. f_equal. apply Rmin_left. apply Rmin_glb; lra.
  - rewrite Hbr. split.
    + intros E. injection E as E.
      apply (Rmin_halves_zero m1 m2 P1 P2) in E.
      destruct E as [Hm | Hm]; [left; apply Z1 in Hm | right; apply Z2 in Hm]; lra.
    + intros Hz. f_equal. apply (Rmin_halves_zero m1 m2 P1 P2).
      destruct Hz as [[-> ->] | [-> ->]]; [left; apply Z1 | right; apply Z2]; lra.
Qed.

Lemma corner_radius_closed_form_witness :
  br (corner (map Num [0; 0; 50; 0; 50; 50]) 0) =
  Num (Rmin 40 (Rmin (Rmax (Rabs (50 - 0)) (Rabs (0 - 0)) / 2)
                     (Rmax (Rabs (50 - 50)) (Rabs (50 - 0)) / 2))).
Proof.
  exact (proj1 (corner_radius_closed_form (map Num [0; 0; 50; 0; 50; 50]) 0 0 0 50 0 50 50
                  eq_refl eq_refl eq_refl eq_refl eq_refl eq_refl)).
Defined.

Lemma distance_along_axis (jx jy px py b : R) :
  0 <= b ->
  ((px - jx = b \/ px - jx = - b) /\ py = jy) \/
  (px = jx /\ (py - jy = b \/ py - jy = - b)) ->
  segment_length jx jy px py = b.
Proof.
  intros Hb H. unfold segment_length.
  replace ((px - jx) * (px - jx) + (py - jy) * (py - jy)) with (b * b).
  - now apply sqrt_square.
  - destruct H as [[[E | E] ->] | [-> [E | E]]]; rewrite ?E; ring_simplify;
      try rewrite E; ring.
Qed.

Lemma pull_back_offset (d b : R) :
  0 <= b -> (d = 0 -> b = 0) ->
  let p := (Rabs d - b) * Math.sgn d in
  p - d = b \/ p - d = - b.
Proof.
  intros Hb Hz. cbv zeta.
  destruct (Rtotal_order d 0) as [N | [E | P]].
  - left. rewrite sgn_neg, Rabs_left by lra. lra.
  - left. rewrite (Hz E), E, sgn_zero by reflexivity. lra.
  - right. rewrite sgn_pos, Rabs_pos_eq by lra. lra.
Qed.

Lemma push_forward_offset (d b : R) :
  0 <= b -> (d = 0 -> b = 0) ->
  b * Math.sgn d = b \/ b * Math.sgn d = - b.
Proof.
  intros Hb Hz.
  destruct (Rtotal_order d 0) as [N | [E | P]].
  - right. rewrite sgn_neg by lra. lra.
  - left. rewrite (Hz E), E, sgn_zero by reflexivity. lra.
  - left. rewrite sgn_pos by lra. lra.
Qed.

(** X12: when the segment into a joint runs along an axis, the line before
    the corner stops at the distance of the radius from the joint; when
    the segment out of the joint runs along an axis, the curve ends at that
    same distance from the joint. *)
Theorem corner_ends_at_radius (points : list js) (n : Z) (ax ay jx jy ex ey : R) :
  get points n = Num ax -> get points (n + 1) = Num ay ->
  get points (n + 2) = Num jx -> get points (n + 3) = Num jy ->
  get points (n + 4) = Num ex -> get points (n + 5) = Num ey ->
  exists b px py qx qy : R,
    br (corner points n) = Num b /\
    x1 (corner points n) = Num px /\ y1 (corner points n) = Num py /\
    x2 (corner points n) = Num qx /\ y2 (corner points n) = Num qy /\
    (ax = jx \/ ay = jy -> segment_length jx jy px py = b) /\
    (jx = ex \/ jy = ey -> segment_length jx jy qx qy = b).
Proof.
  intros H0 H1 H2 H3 H4 H5.
  destruct (corner_reals points n ax ay jx jy ex ey H0 H1 H2 H3 H4 H5)
    as (Hbr & Hx1 & Hy1 & Hx2 & Hy2).
  set (b := Rmin (blend (jx - ax) (jy - ay)) (blend (ex - jx) (ey - jy))) in *.
  destruct (blend_bounds (jx - ax) (jy - ay)) as (Hb1 & _ & Hm1 & _).
  destruct (blend_bounds (ex - jx) (ey - jy)) as (Hb2 & _ & Hm2 & _).
  pose proof (Rmin_l (blend (jx - ax) (jy - ay)) (blend (ex - jx) (ey - jy))) as Hl.
  pose proof (Rmin_r (blend (jx - ax) (jy - ay)) (blend (ex - jx) (ey - jy))) as Hr.
  fold b in Hl, Hr.
  assert (Hb : 0 <= b) by (unfold b; apply Rmin_glb; assumption).
  eexists b, _, _, _, _.
  split; [exact Hbr|]. split; [exact Hx1|]. split; [exact Hy1|].
  split; [exact Hx2|]. split; [exact Hy2|].
  assert (Hz1 : jx - ax = 0 -> jy - ay = 0 -> b = 0).
  { intros E1 E2. rewrite E1, E2, Rabs_R0, Rmax_left in Hm1 by lra.
    rewrite E1, E2 in Hl. lra. }
  assert (Hz2 : ex - jx = 0 -> ey - jy = 0 -> b = 0).
  { intros E1 E2. rewrite E1, E2, Rabs_R0, Rmax_left in Hm2 by lra.
    rewrite E1, E2 in Hr. lra. }
  split.
  - intros Hax. apply distance_along_axis; [exact Hb|].
    destruct Hax as [E | E].
    + right. assert (E0 : jx - ax = 0) by lra.
      rewrite E0, (sgn_zero 0) by reflexivity. split; [lra|].
      destruct (pull_back_offset (jy - ay) b Hb (Hz1 E0)) as [O | O]; cbv zeta in O; lra.
    + left. assert (E0 : jy - ay = 0) by lra.
      rewrite E0, (sgn_zero 0) by reflexivity. split; [|lra].
      destruct (pull_back_offset (jx - ax) b Hb (fun E1 => Hz1 E1 E0)) as [O | O];
        cbv zeta in O; lra.
  - intros Hax. apply distance_along_axis; [exact Hb|].
    destruct Hax as [E | E].
    + right. assert (E0 : ex - jx = 0) by lra.
      rewrite E0, (sgn_zero 0) by reflexivity. split; [lra|].
      destruct (push_forward_offset (ey - jy) b Hb (Hz2 E0)) as [O | O]; lra.
    + left. assert (E0 : ey - jy = 0) by lra.
      rewrite E0, (sgn_zero 0) by reflexivity. split; [|lra].
      destruct (push_forward_offset (ex - jx) b Hb (fun E1 => Hz2 E1 E0)) as [O | O]; lra.
Qed.

Lemma corner_ends_at_radius_witness :
  exists b px py qx qy : R,
    br (corner (map Num [0; 0; 50; 0; 50; 50]) 0) = Num b /\
    x1 (corner (map Num [0; 0; 50; 0; 50; 50]) 0) = Num px /\
    y1 (corner (map Num [0; 0; 50; 0; 50; 50]) 0) = Num py /\
    x2 (corner (map Num [0; 0; 50; 0; 50; 50]) 0) = Num qx /\
    y2 (corner (map Num [0; 0; 50; 0; 50; 50]) 0) = Num qy /\
    segment_length 50 0 px py = b /\
    segment_length 50 0 qx qy = b.
Proof.
  destruct (corner_ends_at_radius (map Num [0; 0; 50; 0; 50; 50]) 0 0 0 50 0 50 50
              eq_refl eq_refl eq_refl eq_refl eq_refl eq_refl)
    as (b & px & py & qx & qy & Hb & Hx1 & Hy1 & Hx2 & Hy2 & Hin & Hout).
  exists b, px, py, qx, qy.
  repeat (split; [assumption|]).
  split; [apply Hin; right; reflexivity | apply Hout; left; reflexivity].
Defined.

Lemma ratio_bounds (d b : R) :
  0 < d -> 0 <= b -> b <= d / 2 ->
  0 <= b / d <= 1 / 2 /\ 1 / 2 <= (d - b) / d <= 1.
Proof.
  intros Hd Hb Hhalf.
  assert (Hi : 0 < / d) by now apply Rinv_0_lt_compat.
  assert (Hdi : d * / d = 1) by (apply Rinv_r; lra).
  unfold Rdiv. repeat split; nra.
Qed.

(** X13: two corners never meet on the segment they share.  For four
    consecutive points of numbers whose middle segment, from the first
    joint to the second, is not a single point and runs along an axis or
    a diagonal, the curve of the first joint ends in the first half of that
    segment and the line to the corner of the second joint stops in its
    second half. *)
Theorem corners_do_not_overlap (points : list js) (n : Z)
    (ax ay j1x j1y j2x j2y ex ey : R) :
  get points n = Num ax -> get points (n + 1) = Num ay ->
  get points (n + 2) = Num j1x -> get points (n + 3) = Num j1y ->
  get points (n + 4) = Num j2x -> get points (n + 5) = Num j2y ->
  get points (n + 6) = Num ex -> get points (n + 7) = Num ey ->
  j1x <> j2x \/ j1y <> j2y ->
  axis_or_diagonal (j2x - j1x) (j2y - j1y) ->
  exists tq tp : R,
    0 <= tq <= 1 / 2 /\ 1 / 2 <= tp <= 1 /\
    x2 (corner points n) = Num (j1x + tq * (j2x - j1x)) /\
    y2 (corner points n) = Num (j1y + tq * (j2y - j1y)) /\
    x1 (corner points (n + 2)) = Num (j1x + tp * (j2x - j1x)) /\
    y1 (corner points (n + 2)) = Num (j1y + tp * (j2y - j1y)).
Proof.
  intros H0 H1 H2 H3 H4 H5 H6 H7 Hne Hax.
  destruct (corner_reals points n ax ay j1x j1y j2x j2y H0 H1 H2 H3 H4 H5)
    as (_ & _ & _ & Hx2 & Hy2).
  assert (H3' : get points (n + 2 + 1) = Num j1y) by (rewrite <- H3; f_equal; lia).
  assert (H4' : get points (n + 2 + 2) = Num j2x) by (rewrite <- H4; f_equal; lia).
  assert (H5' : get points (n + 2 + 3) = Num j2y) by (rewrite <- H5; f_equal; lia).
  assert (H6' : get points (n + 2 + 4) = Num ex) by (rewrite <- H6; f_equal; lia).
  assert (H7' : get points (n + 2 + 5) = Num ey) by (rewrite <- H7; f_equal; lia).
  destruct (corner_reals points (n + 2) j1x j1y j2x j2y ex ey H2 H3' H4' H5' H6' H7')
    as (_ & Hx1 & Hy1 & _ & _).
  set (b1 := Rmin (blend (j1x - ax) (j1y - ay)) (blend (j2x - j1x) (j2y - j1y))) in *.
  set (b2 := Rmin (blend (j2x - j1x) (j2y - j1y)) (blend (ex - j2x) (ey - j2y))) in *.
  destruct (blend_bounds (j1x - ax) (j1y - ay)) as (Pa & _).
  destruct (blend_bounds (j2x - j1x) (j2y - j1y)) as (Pm & _ & Hm & _).
  destruct (blend_bounds (ex - j2x) (ey - j2y)) as (Pe & _).
  pose proof (Rmin_r (blend (j1x - ax) (j1y - ay)) (blend (j2x - j1x) (j2y - j1y))) as L1.
  pose proof (Rmin_l (blend (j2x - j1x) (j2y - j1y)) (blend (ex - j2x) (ey - j2y))) as L2.
  fold b1 in L1. fold b2 in L2.
  assert (P1 : 0 <= b1) by (unfold b1; apply Rmin_glb; assumption).
  assert (P2 : 0 <= b2) by (unfold b2; apply Rmin_glb; assumption).
  destruct (axis_cases _ _ Hax) as [Cx Cy].
  set (d := Rmax (Rabs (j2x - j1x)) (Rabs (j2y - j1y))) in *.
  assert (Hd : 0 < d).
  { assert (Hd0 : 0 <= d).
    { apply Rle_trans with (Rabs (j2x - j1x)); [apply Rabs_pos | apply Rmax_l]. }
    destruct (Req_dec d 0) as [E | N]; [|lra].
    apply Rmax_abs_zero in E. destruct Hne; lra. }
  destruct (ratio_bounds d b1 Hd P1 ltac:(lra)) as [Bq _].
  destruct (ratio_bounds d b2 Hd P2 ltac:(lra)) as [_ Bp].
  exists (b1 / d), ((d - b2) / d).
  split; [exact Bq|]. split; [exact Bp|].
  rewrite Hx2, Hy2, Hx1, Hy1.
  repeat split; f_equal; f_equal;
    first [now apply push_forward_axis | now apply pull_back_axis].
Qed.

Lemma corners_do_not_overlap_witness :
  exists tq tp : R,
    0 <= tq <= 1 / 2 /\ 1 / 2 <= tp <= 1 /\
    x2 (corner (map Num [0; 0; 50; 0; 50; 30; 90; 30]) 0) = Num (50 + tq * (50 - 50)) /\
    y2 (corner (map Num [0; 0; 50; 0; 50; 30; 90; 30]) 0) = Num (0 + tq * (30 - 0)) /\
    x1 (corner (map Num [0; 0; 50; 0; 50; 30; 90; 30]) (0 + 2)) = Num (50 + tp * (50 - 50)) /\
    y1 (corner (map Num [0; 0; 50; 0; 50; 30; 90; 30]) (0 + 2)) = Num (0 + tp * (30 - 0)).
Proof.
  refine (corners_do_not_overlap (map Num [0; 0; 50; 0; 50; 30; 90; 30]) 0
            0 0 50 0 50 30 90 30
            eq_refl eq_refl eq_refl eq_refl eq_refl eq_refl eq_refl eq_refl _ _).
  - right. lra.
  - left. lra.
Defined.

(** ** The heading, further *)

Lemma hypot_scaled (d z : R) :
  0 < d -> sqrt (d * d + (z * d) * (z * d)) = d * sqrt (1 + z²).
Proof.
  intros Hd.
  replace (d * d + z * d * (z * d)) with ((d * d) * (1 + z²)) by (unfold Rsqr; ring).
  rewrite sqrt_mult; [|nra | pose proof (Rle_0_sqr z); lra].
  rewrite sqrt_square by lra. reflexivity.
Qed.

Lemma hypot_pos (z : R) : 0 < sqrt (1 + z²).
Proof. apply sqrt_lt_R0. pose proof (Rle_0_sqr z). lra. Qed.

Lemma direction_of_atan (d z : R) :
  0 < d ->
  cos (atan z) * (d * sqrt (1 + z²)) = d /\
  sin (atan z) * (d * sqrt (1 + z²)) = z * d.
Proof.
  intros Hd. rewrite cos_atan, sin_atan. pose proof (hypot_pos z).
  split; field; lra.
Qed.

Lemma atan2R_direction (dx dy : R) :
  cos (Math.atan2R dy dx) * sqrt (dx * dx + dy * dy) = dx /\
  sin (Math.atan2R dy dx) * sqrt (dx * dx + dy * dy) = dy.
Proof.
  unfold Math.atan2R.
  destruct (Rlt_dec 0 dx) as [Px | NPx].
  - set (z := dy / dx).
    assert (HL : sqrt (dx * dx + dy * dy) = dx * sqrt (1 + z²)).
    { replace (dy * dy) with ((z * dx) * (z * dx)) by (unfold z; field; lra).
      now apply hypot_scaled. }
    rewrite HL. destruct (direction_of_atan dx z Px) as [Hc Hs].
    split; [exact Hc|]. rewrite Hs. unfold z. field. lra.
  - destruct (Rlt_dec dx 0) as [Nx | NNx].
    + set (z := dy / dx). set (d := - dx).
      assert (Hd : 0 < d) by (unfold d; lra).
      assert (HL : sqrt (dx * dx + dy * dy) = d * sqrt (1 + z²)).
      { replace (dx * dx) with (d * d) by (unfold d; ring).
        replace (dy * dy) with ((z * d) * (z * d)) by (unfold z, d; field; lra).
        now apply hypot_scaled. }
      rewrite HL. destruct (direction_of_atan d z Hd) as [Hc Hs].
      assert (Ex : - d = dx) by (unfold d; ring).
      assert (Ey : - (z * d) = dy) by (unfold z, d; field; lra).
      set (c := cos (atan z)) in *. set (s := sin (atan z)) in *.
      set (L := d * sqrt (1 + z²)) in *.
      destruct (Rle_dec 0 dy).
      * rewrite neg_cos, neg_sin. fold c s. split; nra.
      * rewrite cos_minus, sin_minus, cos_PI, sin_PI. fold c s. split; nra.
    + assert (E : dx = 0) by lra. subst dx.
      rewrite Rmult_0_l, Rplus_0_l.
      destruct (Rlt_dec 0 dy) as [Py | NPy].
      * rewrite cos_PI2, sin_PI2, sqrt_square by lra. lra.
      * destruct (Rlt_dec dy 0) as [Ny | NNy].
        -- rewrite cos_neg, sin_neg, cos_PI2, sin_PI2.
           replace (dy * dy) with ((- dy) * (- dy)) by ring.
           rewrite sqrt_square by lra. lra.
        -- assert (E : dy = 0) by lra. subst dy.
           rewrite Rmult_0_l, sqrt_0. lra.
Qed.

(** X14: the heading the integrated [sceneFunc] takes for an array that
    ends in two points of numbers is the direction of the last segment:
    its cosine and sine, times the length of the segment, are the
    differences in [x] and in [y] of the last two points. *)
Theorem heading_along_last_segment (pre : list js) (px py tx ty : R) :
  exists a : R,
    angle_of (pre ++ [Num px; Num py; Num tx; Num ty]) = Num a /\
    cos a * segment_length px py tx ty = tx - px /\
    sin a * segment_length px py tx ty = ty - py.
Proof.
  exists (Math.atan2R (ty - py) (tx - px)).
  split; [apply angle_of_last|]. apply atan2R_direction.
Qed.

Lemma drawHead_last (pre : list js) (ctx : Context) (px py tx ty : R) :
  scene_ctx (drawHead {| scene_points := pre ++ [Num px; Num py; Num tx; Num ty];
                         scene_ctx := ctx |}) =
  ctx ++ chevron (Num tx) (Num ty) (Num (Math.atan2R (ty - py) (tx - px))).
Proof.
  set (points := pre ++ [Num px; Num py; Num tx; Num ty]).
  assert (Htx : get points (len points - 2) = Num tx).
  { replace (len points - 2)%Z with (len points - 4 + Z.of_nat 2)%Z by lia.
    unfold points. now rewrite get_last4 by lia. }
  assert (Hty : get points (len points - 1) = Num ty).
  { replace (len points - 1)%Z with (len points - 4 + Z.of_nat 3)%Z by lia.
    unfold points. now rewrite get_last4 by lia. }
  pose proof (angle_of_last pre px py tx ty) as Ha. fold points in Ha.
  unfold drawHead, ctx_call, call, pt, plen. cbn [scene_points scene_ctx].
  rewrite Htx, Hty, Ha, <- !app_assoc. reflexivity.
Qed.

(** X15: the chevron is symmetric about the last segment.  For an array that
    ends in two points of numbers, the two strokes open at an angle of
    [PI / 3] (their scalar product is [10 * 10 * cos (PI / 3) = 50]) and the
    point half way between their ends lies back along the last segment, at
    [10 * cos (PI / 6)] from the last point. *)
Theorem chevron_is_symmetric (pre : list js) (ctx : Context) (px py tx ty : R) :
  let s := {| scene_points := pre ++ [Num px; Num py; Num tx; Num ty];
              scene_ctx := ctx |} in
  exists lx ly rx ry : R,
    scene_ctx (drawHead s) =
      ctx ++ [LineTo (Num lx) (Num ly); MoveTo (Num tx) (Num ty); LineTo (Num rx) (Num ry)] /\
    (lx - tx) * (rx - tx) + (ly - ty) * (ry - ty) = 10 * 10 * cos (PI / 3) /\
    (lx - tx) * (rx - tx) + (ly - ty) * (ry - ty) = 50 /\
    ((lx + rx) / 2 - tx) * segment_length px py tx ty = - (10 * cos (PI / 6)) * (tx - px) /\
    ((ly + ry) / 2 - ty) * segment_length px py tx ty = - (10 * cos (PI / 6)) * (ty - py).
Proof.
  cbv zeta. rewrite drawHead_last.
  set (a := Math.atan2R (ty - py) (tx - px)).
  destruct (atan2R_direction (tx - px) (ty - py)) as [Hc Hs].
  fold a in Hc, Hs. fold (segment_length px py tx ty) in Hc, Hs.
  set (L := segment_length px py tx ty) in *.
  eexists _, _, _, _. split; [reflexivity|].
  assert (Hdot : (tx - 10 * cos (a - PI / 6) - tx) * (tx - 10 * cos (a + PI / 6) - tx) +
                 (ty - 10 * sin (a - PI / 6) - ty) * (ty - 10 * sin (a + PI / 6) - ty) =
                 10 * 10 * cos (PI / 3)).
  { replace (PI / 3) with ((a + PI / 6) - (a - PI / 6)) by lra.
    rewrite (cos_minus (a + PI / 6) (a - PI / 6)). ring. }
  split; [exact Hdot|]. split; [rewrite Hdot, cos_PI3; lra|].
  rewrite cos_minus, cos_plus, sin_minus, sin_plus.
  split.
  - replace ((tx - 10 * (cos a * cos (PI / 6) + sin a * sin (PI / 6)) +
              (tx - 10 * (cos a * cos (PI / 6) - sin a * sin (PI / 6)))) / 2 - tx)
      with (- (10 * cos (PI / 6)) * cos a) by lra.
    rewrite Rmult_assoc, Hc. reflexivity.
  - replace ((ty - 10 * (sin a * cos (PI / 6) - cos a * sin (PI / 6)) +
              (ty - 10 * (sin a * cos (PI / 6) + cos a * sin (PI / 6)))) / 2 - ty)
      with (- (10 * cos (PI / 6)) * sin a) by lra.
    rewrite Rmult_assoc, Hs. reflexivity.
Qed.

(** ** A corner taken the other way *)

Lemma pull_back_is_push_forward (a j b : R) :
  a + (Rabs (j - a) - b) * Math.sgn (j - a) = j + b * Math.sgn (a - j).
Proof.
  destruct (Rtotal_order (j - a) 0) as [N | [E | P]].
  - rewrite (sgn_neg (j - a)), (sgn_pos (a - j)), Rabs_left by lra. lra.
  - rewrite (sgn_zero (j - a)), (sgn_zero (a - j)) by lra. lra.
  - rewrite (sgn_pos (j - a)), (sgn_neg (a - j)), Rabs_pos_eq by lra. lra.
Qed.

Lemma blend_opp (dx dy : R) : blend (- dx) (- dy) = blend dx dy.
Proof.
  rewrite !blend_closed, !Rabs_Ropp. reflexivity.
Qed.

(** X16: a corner is the same whichever way the path runs.  For three
    points of numbers, the radius at the middle one is the same when the
    three are given in the opposite order, the point where the line stops
    before the corner one way is the point where the curve ends the other
    way, and the control point is the joint both ways. *)
Theorem corner_is_reversible (ax ay jx jy ex ey : R) :
  let forth := corner (map Num [ax; ay; jx; jy; ex; ey]) 0 in
  let back := corner (map Num [ex; ey; jx; jy; ax; ay]) 0 in
  br back = br forth /\
  x1 back = x2 forth /\ y1 back = y2 forth /\
  x2 back = x1 forth /\ y2 back = y1 forth /\
  cpx back = cpx forth /\ cpy back = cpy forth.
Proof.
  cbv zeta.
  destruct (corner_reals (map Num [ax; ay; jx; jy; ex; ey]) 0 ax ay jx jy ex ey
              eq_refl eq_refl eq_refl eq_refl eq_refl eq_refl)
    as (Fb & Fx1 & Fy1 & Fx2 & Fy2).
  destruct (corner_reals (map Num [ex; ey; jx; jy; ax; ay]) 0 ex ey jx jy ax ay
              eq_refl eq_refl eq_refl eq_refl eq_refl eq_refl)
    as (Bb & Bx1 & By1 & Bx2 & By2).
  assert (Hb : Rmin (blend (jx - ex) (jy - ey)) (blend (ax - jx) (ay - jy)) =
               Rmin (blend (jx - ax) (jy - ay)) (blend (ex - jx) (ey - jy))).
  { rewrite <- (blend_opp (ex - jx) (ey - jy)), <- (blend_opp (jx - ax) (jy - ay)).
    replace (- (ex - jx)) with (jx - ex) by ring.
    replace (- (ey - jy)) with (jy - ey) by ring.
    replace (- (jx - ax)) with (ax - jx) by ring.
    replace (- (jy - ay)) with (ay - jy) by ring.
    apply Rmin_comm. }
  rewrite Bb, Bx1, By1, Bx2, By2, Fb, Fx1, Fy1, Fx2, Fy2, Hb.
  repeat split; f_equal;
    first [apply pull_back_is_push_forward | symmetry; apply pull_back_is_push_forward].
Qed.

(** ** The element *)

Lemma stroked_lookup (cfg : Config) (name : string) :
  GenericArrow.strokedProps cfg !! name =
  if decide (name = "hitStrokeWidth"%string) then Some (ANum (Number (ArrowHitStrokeWidth cfg)))
  else if decide (name = "strokeWidth"%string) then Some (ANum (Number (ArrowStrokeWidth cfg)))
  else if decide (name = "stroke"%string) then Some (AStr (SA_WHITE cfg))
  else if decide (name = "fill"%string) then Some (AStr (SA_WHITE cfg))
  else ShapeDefaultProps cfg !! name.
Proof.
  unfold GenericArrow.strokedProps.
  destruct (decide (name = "hitStrokeWidth"%string)) as [-> | N1];
    [apply lookup_insert_eq|].
  rewrite lookup_insert_ne by congruence.
  destruct (decide (name = "strokeWidth"%string)) as [-> | N2];
    [apply lookup_insert_eq|].
  rewrite lookup_insert_ne by congruence.
  destruct (decide (name = "stroke"%string)) as [-> | N3];
    [apply lookup_insert_eq|].
  rewrite lookup_insert_ne by congruence.
  destruct (decide (name = "fill"%string)) as [-> | N4];
    [apply lookup_insert_eq|].
  now rewrite lookup_insert_ne by congruence.
Qed.

(** X17: in the map of named attributes of the shapes [draw] returns (the
    props other than [points], [sceneFunc], [key] and the two handlers,
    which the elements hold apart from it), the values written for [fill],
    [stroke], [strokeWidth] and [hitStrokeWidth] win over those of
    [ShapeDefaultProps] and every name other than these and the props held
    apart has the value of [ShapeDefaultProps].  The map of the stock arrow
    of the composite version differs from that of the path at [strokeWidth]
    and [hitStrokeWidth] only, where it has 0; the two hold the same array
    of points; the path has the custom [sceneFunc] and the stock arrow has
    none. *)
Theorem explicit_props_win (cfg : Config) (h : Heap) (name : string) :
  let g := fst (Composite.draw cfg h) in
  let a := fst (Integrated.draw cfg h) in
  props (Integrated.shape a) = props (Composite.path g) /\
  props (Composite.path g) !! "fill"%string = Some (AStr (SA_WHITE cfg)) /\
  props (Composite.path g) !! "stroke"%string = Some (AStr (SA_WHITE cfg)) /\
  props (Composite.path g) !! "strokeWidth"%string =
    Some (ANum (Number (ArrowStrokeWidth cfg))) /\
  props (Composite.path g) !! "hitStrokeWidth"%string =
    Some (ANum (Number (ArrowHitStrokeWidth cfg))) /\
  props (Composite.arrow g) !! "fill"%string = Some (AStr (SA_WHITE cfg)) /\
  props (Composite.arrow g) !! "stroke"%string = Some (AStr (SA_WHITE cfg)) /\
  props (Composite.arrow g) !! "strokeWidth"%string = Some (ANum (Num 0)) /\
  props (Composite.arrow g) !! "hitStrokeWidth"%string = Some (ANum (Num 0)) /\
  (name <> "strokeWidth"%string -> name <> "hitStrokeWidth"%string ->
   name <> "sceneFunc"%string ->
   props (Composite.arrow g) !! name = props (Composite.path g) !! name) /\
  (name <> "fill"%string -> name <> "stroke"%string ->
   name <> "strokeWidth"%string -> name <> "hitStrokeWidth"%string ->
   name <> "points"%string -> name <> "sceneFunc"%string -> name <> "key"%string ->
   name <> "onMouseEnter"%string -> name <> "onMouseLeave"%string ->
   props (Composite.path g) !! name = ShapeDefaultProps cfg !! name) /\
  shape_points (Composite.arrow g) = shape_points (Composite.path g) /\
  shape_points (Integrated.shape a) = shape_points (Composite.path g) /\
  shape_sceneFunc (Composite.path g) = Some Composite.sceneFunc /\
  shape_sceneFunc (Composite.arrow g) = None /\
  shape_sceneFunc (Integrated.shape a) = Some Integrated.sceneFunc.
Proof.
  cbv zeta. unfold Composite.draw, Integrated.draw, Composite.draw_with, Integrated.draw_with.
  cbn [fst Composite.path Composite.arrow Integrated.shape props shape_points shape_sceneFunc].
  split; [reflexivity|].
  split; [now rewrite stroked_lookup|].
  split; [now rewrite stroked_lookup|].
  split; [now rewrite stroked_lookup|].
  split; [now rewrite stroked_lookup|].
  split; [rewrite !lookup_insert_ne by discriminate; apply lookup_insert_eq|].
  split; [rewrite !lookup_insert_ne by discriminate; apply lookup_insert_eq|].
  split; [rewrite lookup_insert_ne by discriminate; apply lookup_insert_eq|].
  split; [apply lookup_insert_eq|].
  split.
  - intros N1 N2 _. unfold GenericArrow.strokedProps.
    rewrite !(lookup_insert_ne _ "hitStrokeWidth"%string) by congruence.
    rewrite !(lookup_insert_ne _ "strokeWidth"%string) by congruence.
    reflexivity.
  - split; [|repeat split].
    intros N1 N2 N3 N4 _ _ _ _ _. rewrite stroked_lookup.
    repeat (case_decide; [congruence|]). reflexivity.
Qed.

(** X18: [draw] before any [to]: whatever the anchor, [calculateSteps] gives
    no step and the element gets the empty array; its [sceneFunc] still
    calls [moveTo] and [lineTo], with [undefined], and in the integrated
    version strokes a chevron at [NaN]; width and height are 0 and
    [Layout.key] is used up all the same. *)
Theorem draw_without_target (cfg : Config) (from : Visible) (k : Z) :
  let a := GenericArrow.constructor from in
  let h := {| this := a; Layout_key := k |} in
  GenericArrow.calculateSteps a = [] /\
  GenericArrow.width a = Num 0 /\ GenericArrow.height a = Num 0 /\
  shape_points (Composite.path (fst (Composite.draw cfg h))) = [] /\
  shape_points (Integrated.shape (fst (Integrated.draw cfg h))) = [] /\
  render (Composite.path (fst (Composite.draw cfg h))) [] =
    Some [BeginPath; MoveTo Undefined Undefined; LineTo Undefined Undefined; StrokeShape] /\
  render (Integrated.shape (fst (Integrated.draw cfg h))) [] =
    Some [BeginPath; MoveTo Undefined Undefined; LineTo Undefined Undefined;
          LineTo NaN NaN; MoveTo Undefined Undefined; LineTo NaN NaN; StrokeShape] /\
  Layout_key (snd (Composite.draw cfg h)) = (k + 1)%Z /\
  Layout_key (snd (Integrated.draw cfg h)) = (k + 1)%Z.
Proof. cbv zeta. repeat split. Qed.

(** ** Moving the points *)

Lemma flat_length (ps : list (R * R)) : length (flat ps) = (2 * length ps)%nat.
Proof. induction ps as [|p ps IH]; simpl; [reflexivity|]. rewrite IH. lia. Qed.

Lemma flat_nth (ps : list (R * R)) : forall i : nat,
  (i < length ps)%nat ->
  nth (2 * i) (flat ps) Undefined = Num (fst (nth i ps (0, 0))) /\
  nth (2 * i + 1) (flat ps) Undefined = Num (snd (nth i ps (0, 0))).
Proof.
  induction ps as [|p ps IH]; intros i Hi; [simpl in Hi; lia|].
  destruct i as [|i]; [split; reflexivity|].
  replace (2 * S i)%nat with (S (S (2 * i))) by lia.
  replace (S (S (2 * i)) + 1)%nat with (S (S (2 * i + 1))) by lia.
  simpl in Hi. apply (IH i). lia.
Qed.

Lemma flat_get (ps : list (R * R)) (i : nat) :
  (i < length ps)%nat ->
  get (flat ps) (2 * Z.of_nat i) = Num (fst (nth i ps (0, 0))) /\
  get (flat ps) (2 * Z.of_nat i + 1) = Num (snd (nth i ps (0, 0))).
Proof.
  intros Hi. destruct (flat_nth ps i Hi) as [Hx Hy].
  replace (2 * Z.of_nat i)%Z with (Z.of_nat (2 * i)) by lia.
  replace (Z.of_nat (2 * i) + 1)%Z with (Z.of_nat (2 * i + 1)) by lia.
  now rewrite !get_nth.
Qed.

Lemma moved_nth (dx dy : R) (ps : list (R * R)) (i : nat) :
  (i < length ps)%nat ->
  nth i (map (move dx dy) ps) (0, 0) = move dx dy (nth i ps (0, 0)).
Proof.
  intros Hi. rewrite (nth_indep _ (0, 0) (move dx dy (0, 0))) by (rewrite length_map; lia).
  apply map_nth.
Qed.

Lemma moved_get (dx dy : R) (ps : list (R * R)) (i : nat) :
  (i < length ps)%nat ->
  get (flat (map (move dx dy) ps)) (2 * Z.of_nat i) = Num (fst (nth i ps (0, 0)) + dx) /\
  get (flat (map (move dx dy) ps)) (2 * Z.of_nat i + 1) = Num (snd (nth i ps (0, 0)) + dy).
Proof.
  intros Hi.
  destruct (flat_get (map (move dx dy) ps) i ltac:(rewrite length_map; lia)) as [Hx Hy].
  rewrite moved_nth in Hx, Hy by exact Hi. split; assumption.
Qed.

(** Equality of commands, down to the equality of their real arguments. *)
Ltac cmds_eq :=
  repeat first
    [ reflexivity
    | match goal with
      | |- _ :: _ = _ :: _ => apply (f_equal2 cons)
      | |- _ ++ _ = _ ++ _ => apply (f_equal2 (@app cmd))
      | |- LineTo _ _ = LineTo _ _ => apply (f_equal2 LineTo)
      | |- MoveTo _ _ = MoveTo _ _ => apply (f_equal2 MoveTo)
      | |- QuadraticCurveTo _ _ _ _ = QuadraticCurveTo _ _ _ _ =>
          apply (f_equal4 QuadraticCurveTo)
      | |- Num _ = Num _ => apply (f_equal Num); ring
      end ].

Lemma moved_corner (dx dy : R) (ps : list (R * R)) (i : nat) :
  (i + 2 < length ps)%nat ->
  corner_cmds (flat (map (move dx dy) ps)) (2 * Z.of_nat i) =
  map (move_cmd dx dy) (corner_cmds (flat ps) (2 * Z.of_nat i)).
Proof.
  intros Hi.
  set (n := (2 * Z.of_nat i)%Z).
  assert (E1 : (n + 2 = 2 * Z.of_nat (i + 1))%Z) by lia.
  assert (E2 : (n + 4 = 2 * Z.of_nat (i + 2))%Z) by lia.
  assert (E3 : (n + 3 = 2 * Z.of_nat (i + 1) + 1)%Z) by lia.
  assert (E5 : (n + 5 = 2 * Z.of_nat (i + 2) + 1)%Z) by lia.
  destruct (flat_get ps i ltac:(lia)) as [A0 A1].
  destruct (flat_get ps (i + 1) ltac:(lia)) as [A2 A3].
  destruct (flat_get ps (i + 2) ltac:(lia)) as [A4 A5].
  destruct (moved_get dx dy ps i ltac:(lia)) as [B0 B1].
  destruct (moved_get dx dy ps (i + 1) ltac:(lia)) as [B2 B3].
  destruct (moved_get dx dy ps (i + 2) ltac:(lia)) as [B4 B5].
  fold n in A0, A1, B0, B1.
  rewrite <- E1 in A2, B2. rewrite <- E3 in A3, B3.
  rewrite <- E2 in A4, B4. rewrite <- E5 in A5, B5.
  destruct (nth i ps (0, 0)) as [ax ay].
  destruct (nth (i + 1) ps (0, 0)) as [jx jy].
  destruct (nth (i + 2) ps (0, 0)) as [ex ey].
  cbn [fst snd] in *.
  destruct (corner_reals _ n _ _ _ _ _ _ A0 A1 A2 A3 A4 A5) as (_ & Fx1 & Fy1 & Fx2 & Fy2).
  destruct (corner_reals _ n _ _ _ _ _ _ B0 B1 B2 B3 B4 B5) as (_ & Gx1 & Gy1 & Gx2 & Gy2).
  unfold corner_cmds. cbv zeta.
  rewrite Fx1, Fy1, Fx2, Fy2, Gx1, Gy1, Gx2, Gy2, A2, A3, B2, B3.
  replace (jx + dx - (ax + dx)) with (jx - ax) by ring.
  replace (jy + dy - (ay + dy)) with (jy - ay) by ring.
  replace (ex + dx - (jx + dx)) with (ex - jx) by ring.
  replace (ey + dy - (jy + dy)) with (ey - jy) by ring.
  cbn [map move_cmd js_add js_bin].
  cmds_eq.
Qed.

Lemma moved_corners (dx dy : R) (ps : list (R * R)) (js : list Z) :
  (forall n, In n js -> exists i : nat, n = (2 * Z.of_nat i)%Z /\ (i + 2 < length ps)%nat) ->
  flat_map (corner_cmds (flat (map (move dx dy) ps))) js =
  map (move_cmd dx dy) (flat_map (corner_cmds (flat ps)) js).
Proof.
  induction js as [|n js IH]; intros Hjs; [reflexivity|].
  cbn [flat_map]. rewrite map_app, IH by (intros m Hm; apply Hjs; now right).
  destruct (Hjs n (or_introl eq_refl)) as (i & -> & Hi).
  now rewrite moved_corner.
Qed.

Lemma joints_of_flat (ps : list (R * R)) (n : Z) :
  In n (joints (flat ps)) ->
  exists i : nat, n = (2 * Z.of_nat i)%Z /\ (i + 2 < length ps)%nat.
Proof.
  intros Hin. apply joints_spec in Hin. destruct Hin as [Hr He].
  unfold len in Hr. rewrite flat_length in Hr.
  apply Z.even_spec in He. destruct He as [m Hm].
  exists (Z.to_nat m). split; lia.
Qed.

Lemma moved_render (dx dy : R) (ps : list (R * R)) :
  (2 <= length ps)%nat ->
  emitted Composite.sceneFunc (flat (map (move dx dy) ps)) =
    map (move_cmd dx dy) (emitted Composite.sceneFunc (flat ps)) /\
  emitted Integrated.sceneFunc (flat (map (move dx dy) ps)) =
    map (move_cmd dx dy) (emitted Integrated.sceneFunc (flat ps)).
Proof.
  intros Hk.
  set (k := length ps) in *.
  assert (Hlen : len (flat (map (move dx dy) ps)) = len (flat ps)).
  { unfold len. now rewrite !flat_length, length_map. }
  assert (Hjoints : joints (flat (map (move dx dy) ps)) = joints (flat ps)).
  { unfold joints. now rewrite Hlen, !flat_length, length_map. }
  assert (HL : len (flat ps) = (2 * Z.of_nat k)%Z).
  { unfold len. rewrite flat_length. fold k. lia. }
  destruct (flat_get ps 0 ltac:(lia)) as [A0 A1].
  destruct (moved_get dx dy ps 0 ltac:(lia)) as [B0 B1].
  destruct (flat_get ps (k - 1) ltac:(lia)) as [At Au].
  destruct (moved_get dx dy ps (k - 1) ltac:(lia)) as [Bt Bu].
  destruct (flat_get ps (k - 2) ltac:(lia)) as [Ap Aq].
  destruct (moved_get dx dy ps (k - 2) ltac:(lia)) as [Bp Bq].
  change (2 * Z.of_nat 0)%Z with 0%Z in A0, A1, B0, B1.
  change (0 + 1)%Z with 1%Z in A1, B1.
  replace (2 * Z.of_nat (k - 1))%Z with (len (flat ps) - 2)%Z in At, Au, Bt, Bu by lia.
  replace (len (flat ps) - 2 + 1)%Z with (len (flat ps) - 1)%Z in Au, Bu by lia.
  replace (2 * Z.of_nat (k - 2))%Z with (len (flat ps) - 4)%Z in Ap, Aq, Bp, Bq by lia.
  replace (len (flat ps) - 4 + 1)%Z with (len (flat ps) - 3)%Z in Aq, Bq by lia.
  destruct (emitted_uniform (flat ps)) as [Fc Fi].
  destruct (emitted_uniform (flat (map (move dx dy) ps))) as [Gc Gi].
  rewrite Fc, Fi, Gc, Gi, Hjoints, Hlen.
  rewrite (moved_corners dx dy ps (joints (flat ps))) by (apply joints_of_flat).
  unfold angle_of. rewrite Hlen.
  rewrite A0, A1, B0, B1, At, Au, Bt, Bu, Ap, Aq, Bp, Bq.
  destruct (nth 0 ps (0, 0)) as [x0 y0].
  destruct (nth (k - 1) ps (0, 0)) as [tx ty].
  destruct (nth (k - 2) ps (0, 0)) as [px py].
  cbn [fst snd].
  rewrite !map_app.
  cbn [map move_cmd chevron js_add js_sub js_mul js_div js_bin js_un app
       Math.atan2 Math.cos Math.sin Math.PI].
  replace (ty + dy - (py + dy)) with (ty - py) by ring.
  replace (tx + dx - (px + dx)) with (tx - px) by ring.
  split; cmds_eq.
Qed.

(** X19: moving every point of an array of at least two points of numbers
    by the same [(dx, dy)] moves every point [sceneFunc] passes to the
    context by [(dx, dy)] and changes nothing else: the same commands in
    the same order, in both versions. *)
Theorem rendering_follows_the_points (dx dy : R) (ps : list (R * R)) :
  (2 <= length ps)%nat ->
  emitted Composite.sceneFunc (flat (map (move dx dy) ps)) =
    map (move_cmd dx dy) (emitted Composite.sceneFunc (flat ps)) /\
  emitted Integrated.sceneFunc (flat (map (move dx dy) ps)) =
    map (move_cmd dx dy) (emitted Integrated.sceneFunc (flat ps)).
Proof. exact (moved_render dx dy ps). Qed.

Lemma rendering_follows_the_points_witness :
  (2 <= length [(0, 0); (50, 0); (50, 50)])%nat /\
  emitted Composite.sceneFunc (flat (map (move 7 (-3)) [(0, 0); (50, 0); (50, 50)])) =
    map (move_cmd 7 (-3)) (emitted Composite.sceneFunc (flat [(0, 0); (50, 0); (50, 50)])).
Proof.
  assert (Hk : (2 <= length [(0, 0); (50, 0); (50, 50)])%nat) by (simpl; lia).
  split; [exact Hk|].
  exact (proj1 (rendering_follows_the_points 7 (-3) [(0, 0); (50, 0); (50, 50)] Hk)).
Defined.
